(** * CF_Authorization address-binding gate: model of [src/index.js]

    The Worker reads the [CF_Authorization] cookie of an inbound request,
    exchanges it for an identity record at the Access endpoint of the same
    host and compares the record's [ip] claim with [CF-Connecting-IP].

    The development has two parts: the definitions (the JavaScript values and
    platform objects the handler touches, [parseCookies] and [handleRequest]),
    then the lemmas about them. *)

From Stdlib Require Import Ascii String List NArith Lia.
From Stdlib Require Import Floats.SpecFloat.
From stdpp Require Import base option list strings gmap.

Local Open Scope string_scope.
Local Open Scope list_scope.
Local Open Scope N_scope.
Local Set Warnings "-register-all".

(** ** JavaScript strings

    A string is its sequence of code units.  Header values reach the Worker
    as byte strings, one code unit per byte, so the code units are those of
    [ascii] (0..255). *)

Module JSString.

(** [WhiteSpace] and [LineTerminator] code points below 256: TAB, LF, VT,
    FF, CR, SP and NBSP.  These are what [String.prototype.trim] strips. *)
Definition is_white_space (c : ascii) : bool :=
  match N_of_ascii c with
  | 9 | 10 | 11 | 12 | 13 | 32 | 160 => true
  | _ => false
  end.

(** Drop the leading, respectively trailing, characters that satisfy [p]. *)
Fixpoint strip_start (p : ascii -> bool) (s : string) : string :=
  match s with
  | EmptyString => EmptyString
  | String c s' => if p c then strip_start p s' else s
  end.

Fixpoint strip_end (p : ascii -> bool) (s : string) : string :=
  match s with
  | EmptyString => EmptyString
  | String c s' =>
      match strip_end p s' with
      | EmptyString => if p c then EmptyString else String c EmptyString
      | t => String c t
      end
  end.

Definition strip (p : ascii -> bool) (s : string) : string :=
  strip_end p (strip_start p s).

(** [s.trim()] *)
Definition trim (s : string) : string := strip is_white_space s.

(** [s.split(sep)] for a one-character separator: always at least one
    piece, [n] separators give [n + 1] pieces. *)
Fixpoint split (sep : ascii) (s : string) : list string :=
  match s with
  | EmptyString => [EmptyString]
  | String c s' =>
      if Ascii.eqb c sep then EmptyString :: split sep s'
      else match split sep s' with
           | [] => [String c EmptyString]
           | piece :: pieces => String c piece :: pieces
           end
  end.

(** [parts.join(sep)]: the empty array joins to the empty string. *)
Fixpoint join (sep : string) (parts : list string) : string :=
  match parts with
  | [] => EmptyString
  | [p] => p
  | p :: rest => p +:+ sep +:+ join sep rest
  end.

(** [parts.slice(1)] *)
Definition slice1 (parts : list string) : list string := drop 1 parts.

(** ToBoolean on a string: only the empty string is falsy. *)
Definition truthy (s : string) : bool :=
  match s with
  | EmptyString => false
  | String _ _ => true
  end.

(** The characters of a string, for statements about its content. *)
Fixpoint chars (s : string) : list ascii :=
  match s with
  | EmptyString => []
  | String c s' => c :: chars s'
  end.

(** Last code unit, if any. *)
Fixpoint last_char (s : string) : option ascii :=
  match s with
  | EmptyString => None
  | String c EmptyString => Some c
  | String _ s' => last_char s'
  end.

(** The last character, when there is one, does not satisfy [p]. *)
Definition ends_clean (p : ascii -> bool) (s : string) : Prop :=
  forall c, last_char s = Some c -> p c = false.

End JSString.

(** ** The cookie jar: [parseCookies]

    [cookies] is an ordinary object literal [{}] used as a map from cookie
    name to value; the jar is the set of its own properties. *)

(** [cookies[name] = value] on an object created by [{}].  Every name
    creates or overwrites an own property, except [__proto__]: that name is
    an accessor inherited from [Object.prototype] whose setter ignores a
    value that is neither an object nor [null], so the assignment of a string
    leaves the object as it was. *)
Definition object_set (cookies : gmap string string) (name value : string)
  : gmap string string :=
  if String.eqb name "__proto__" then cookies else <[name := value]> cookies.

(** The callback of [forEach]: one [;]-separated entry. *)
Definition parseCookies_entry (cookies : gmap string string) (cookie : string)
  : gmap string string :=
  let parts := JSString.split "=" (JSString.trim cookie) in
  let name := parts !! 0%nat in
  let value := JSString.join "=" (JSString.slice1 parts) in
  match name with
  | Some name => if JSString.truthy name then object_set cookies name value else cookies
  | None => cookies
  end.

Definition parseCookies (cookieHeader : string) : gmap string string :=
  let cookies : gmap string string := ∅ in
  if JSString.truthy cookieHeader
  then fold_left parseCookies_entry (JSString.split ";" cookieHeader) cookies
  else cookies.

(** [cookies[name]] for a name that [Object.prototype] does not define:
    the own property, or [undefined]. *)
Definition object_get (cookies : gmap string string) (name : string) : option string :=
  cookies !! name.

(** ** JavaScript values, errors and promises *)

Inductive js_error :=
| TypeError (message : string)
| SyntaxError (message : string)
| Error (message : string).

(** The values [JSON.parse] can produce, and [undefined].  A number is an
    IEEE 754 double; an object is the list of its own properties, whose keys
    are distinct. *)
Inductive js_value :=
| VUndefined
| VNull
| VBoolean (b : bool)
| VNumber (x : spec_float)
| VString (s : string)
| VArray (items : list js_value)
| VObject (props : list (string * js_value)).

(** ToBoolean: [undefined], [null], [false], [0], [-0], [NaN] and the empty
    string are falsy, everything else is truthy. *)
Definition to_boolean (v : js_value) : bool :=
  match v with
  | VUndefined | VNull => false
  | VBoolean b => b
  | VNumber (S754_zero _) | VNumber S754_nan => false
  | VNumber _ => true
  | VString s => JSString.truthy s
  | VArray _ | VObject _ => true
  end.

Fixpoint own_property (props : list (string * js_value)) (key : string) : js_value :=
  match props with
  | [] => VUndefined
  | (k, v) :: rest => if String.eqb k key then v else own_property rest key
  end.

(** [v.key] for a key that no built-in prototype defines (such as [ip]):
    reading a property of [undefined] or [null] throws a [TypeError], an
    object answers with its own property, and the primitives and arrays have
    no such property. *)
Definition member (v : js_value) (key : string) : js_error + js_value :=
  match v with
  | VUndefined | VNull => inl (TypeError "Cannot read properties of null")
  | VObject props => inr (own_property props key)
  | _ => inr VUndefined
  end.

(** [s === v] where [s] is a string: no conversion, so [v] has to be a
    string with the same code units. *)
Definition strict_equals_string (s : string) (v : js_value) : bool :=
  match v with
  | VString t => String.eqb s t
  | _ => false
  end.

(** A settled promise.  (A call that never settles makes the handler wait
    for ever; the properties below are about calls that settle.) *)
Inductive promise (A : Type) :=
| Fulfilled (a : A)
| Rejected (e : js_error).
Arguments Fulfilled {A} a.
Arguments Rejected {A} e.

(** ** Platform objects: Headers, URL, Request, Response, fetch *)

Module Http.

Definition to_lower (c : ascii) : ascii :=
  let n := N_of_ascii c in
  if (65 <=? n) && (n <=? 90) then ascii_of_N (n + 32) else c.

Fixpoint lower (s : string) : string :=
  match s with
  | EmptyString => EmptyString
  | String c s' => String (to_lower c) (lower s')
  end.

(** Header names match without regard to ASCII case. *)
Definition name_matches (a b : string) : bool := String.eqb (lower a) (lower b).

(** HTTP whitespace bytes: TAB, LF, CR and SP. *)
Definition is_http_whitespace (c : ascii) : bool :=
  match N_of_ascii c with
  | 9 | 10 | 13 | 32 => true
  | _ => false
  end.

(** A header value holds no NUL, LF or CR. *)
Definition is_value_char (c : ascii) : bool :=
  match N_of_ascii c with
  | 0 | 10 | 13 => false
  | _ => true
  end.

Definition normalize (value : string) : string :=
  JSString.strip is_http_whitespace value.

Definition valid_value (value : string) : bool :=
  forallb is_value_char (JSString.chars value).

End Http.

(** A header list, in order of insertion. *)
Definition Headers := list (string * string).

(** [headers.get(name)]: [null] when no header has that name, otherwise the
    values of the matching headers joined by a comma and a space. *)
Definition headers_get (headers : Headers) (name : string) : option string :=
  match filter (λ h, Is_true (Http.name_matches (fst h) name)) headers with
  | [] => None
  | found => Some (JSString.join ", " (map snd found))
  end.

(** [headers.append(name, value)]: the value is normalized, and a value
    that is not a header value is refused with a [TypeError].  (The name is
    checked as well; the one name this Worker appends is the literal
    [Cookie].) *)
Definition headers_append (headers : Headers) (name value : string)
  : js_error + Headers :=
  let value := Http.normalize value in
  if Http.valid_value value then inr (headers ++ [(name, value)])
  else inl (TypeError "Invalid header value").

(** Every value a [Headers] object holds is a header value. *)
Definition headers_wf (headers : Headers) : Prop :=
  Forall (λ h, Is_true (Http.valid_value (snd h))) headers.

(** [new URL(request.url)]: the serialized URL and its host name.  The URL
    of a request is always an absolute URL, so the constructor returns. *)
Record URL := { url_href : string; url_hostname : string }.

Record Request := {
  req_method : string;
  req_url : URL;
  req_headers : Headers;
  req_body : option string
}.

Record Response := {
  resp_status : N;
  resp_statusText : string;
  resp_headers : Headers;
  resp_body : option string
}.

(** [new Response(body, { status })] with a string body. *)
Definition new_Response (body : string) (status : N) : Response :=
  {| resp_status := status;
     resp_statusText := "";
     resp_headers := [("content-type", "text/plain;charset=UTF-8")];
     resp_body := Some body |}.

(** [response.ok] *)
Definition resp_ok (r : Response) : bool :=
  (200 <=? resp_status r) && (resp_status r <=? 299).

(** The second argument of [fetch(url, init)]. *)
Record RequestInit := { init_method : string; init_headers : Headers }.

Inductive FetchInput :=
| FetchURL (url : string) (init : RequestInit)
| FetchRequest (request : Request).

(** What the Worker does not implement itself: the global [fetch] (the
    Access endpoint and the origin are both behind it) and the JSON parser
    behind [response.json()]. *)
Record Runtime := {
  fetch : FetchInput -> promise Response;
  JSON_parse : string -> js_error + js_value
}.

(** [response.json()]: a response without body reads as the empty text. *)
Definition response_json (rt : Runtime) (r : Response) : promise js_value :=
  match JSON_parse rt (default "" (resp_body r)) with
  | inl e => Rejected e
  | inr v => Fulfilled v
  end.

(** ** Effects of the handler

    The handler calls [fetch] and writes to the console, and an expression
    may throw.  A computation is the list of events it produced, in order,
    with its completion. *)

Inductive log_message :=
| LogLookupFailed (status : N)
| LogMissingIpClaim
| LogIpMismatch (clientIP : string) (identityIP : js_value).

Inductive event :=
| EvFetch (input : FetchInput)
| EvConsoleLog (message : log_message)
| EvConsoleError (label : string) (error : js_error).

Inductive completion (A : Type) :=
| Normal (a : A)
| Throw (e : js_error).
Arguments Normal {A} a.
Arguments Throw {A} e.

Definition Eff (A : Type) : Type := list event * completion A.

Module Eff.

Definition ret {A} (a : A) : Eff A := ([], Normal a).

Definition bind {A B} (m : Eff A) (k : A -> Eff B) : Eff B :=
  match m with
  | (evs, Normal a) => let '(evs', c) := k a in (evs ++ evs', c)
  | (evs, Throw e) => (evs, Throw e)
  end.

Definition throw {A} (e : js_error) : Eff A := ([], Throw e).

Definition emit (ev : event) : Eff unit := ([ev], Normal tt).

(** A synchronous call that returns or throws. *)
Definition lift {A} (r : js_error + A) : Eff A :=
  match r with
  | inl e => throw e
  | inr a => ret a
  end.

(** [await p]: the value of a fulfilled promise; a rejected promise
    throws its reason at the [await]. *)
Definition await {A} (p : promise A) : Eff A :=
  match p with
  | Fulfilled a => ret a
  | Rejected e => throw e
  end.

(** [try { body } catch (error) { handler }] *)
Definition try_catch {A} (body : Eff A) (handler : js_error -> Eff A) : Eff A :=
  match body with
  | (evs, Normal a) => (evs, Normal a)
  | (evs, Throw e) => let '(evs', c) := handler e in (evs ++ evs', c)
  end.

End Eff.

Notation "'do' x <- m ;; k" := (Eff.bind m (fun x => k))
  (at level 10, x name, m at level 99, k at level 200).
Notation "'run' m ;; k" := (Eff.bind m (fun _ => k))
  (at level 10, m at level 99, k at level 200).

(** What a [return] statement of an [async] function hands over: a value,
    or a promise that was not awaited. *)
Inductive returned :=
| ReturnValue (r : Response)
| ReturnPromise (p : promise Response).

(** The promise of an [async] function.  A returned value fulfils it, an
    exception that leaves the body rejects it, and a returned promise settles
    it the way that promise settles: its rejection happens after the body,
    and with it every [try] block, has been left. *)
Definition async (body : Eff returned) : list event * promise Response :=
  match body with
  | (evs, Normal (ReturnValue r)) => (evs, Fulfilled r)
  | (evs, Normal (ReturnPromise p)) => (evs, p)
  | (evs, Throw e) => (evs, Rejected e)
  end.

Section Handler.

Variable rt : Runtime.

(** [fetch(input)]: the call is made, and its promise returned. *)
Definition call_fetch (input : FetchInput) : Eff (promise Response) :=
  run Eff.emit (EvFetch input) ;; Eff.ret (fetch rt input).

Definition console_log (message : log_message) : Eff unit :=
  Eff.emit (EvConsoleLog message).

Definition console_error (label : string) (error : js_error) : Eff unit :=
  Eff.emit (EvConsoleError label error).

(** Steps 3 to 5 of [handleRequest]: the [try] block and its [catch]. *)
Definition identity_check (request : Request) (clientIP identityUrl : string)
    (identityHeaders : Headers) : Eff returned :=
  let init := {| init_method := "GET"; init_headers := identityHeaders |} in
  Eff.try_catch
    (do p <- call_fetch (FetchURL identityUrl init) ;;
     do identityResponse <- Eff.await p ;;
     if negb (resp_ok identityResponse) then
       run console_log (LogLookupFailed (resp_status identityResponse)) ;;
       Eff.ret (ReturnValue (new_Response "Forbidden" 403))
     else
       do identityData <- Eff.await (response_json rt identityResponse) ;;
       do identityIP <- Eff.lift (member identityData "ip") ;;
       if negb (to_boolean identityIP) then
         run console_log LogMissingIpClaim ;;
         Eff.ret (ReturnValue (new_Response "Forbidden" 403))
       else if strict_equals_string clientIP identityIP then
         do origin <- call_fetch (FetchRequest request) ;;
         Eff.ret (ReturnPromise origin)
       else
         run console_log (LogIpMismatch clientIP identityIP) ;;
         Eff.ret (ReturnValue (new_Response "Forbidden)" 403)))
    (fun error =>
       run console_error "Worker error during identity check:" error ;;
       Eff.ret (ReturnValue (new_Response "Internal Server Error" 500))).

(** The body of [handleRequest]. *)
Definition handleRequest_body (request : Request) : Eff returned :=
  let url := req_url request in
  let hostname := url_hostname url in
  match headers_get (req_headers request) "Cookie" with
  | None => Eff.ret (ReturnValue (new_Response "Forbidden" 403))
  | Some cookieHeader =>
    if negb (JSString.truthy cookieHeader) then
      Eff.ret (ReturnValue (new_Response "Forbidden" 403))
    else
      let cookies := parseCookies cookieHeader in
      match object_get cookies "CF_Authorization" with
      | None => Eff.ret (ReturnValue (new_Response "Forbidden" 403))
      | Some cfAuthCookie =>
        if negb (JSString.truthy cfAuthCookie) then
          Eff.ret (ReturnValue (new_Response "Forbidden" 403))
        else
          match headers_get (req_headers request) "CF-Connecting-IP" with
          | None => Eff.ret (ReturnValue (new_Response "Forbidden" 403))
          | Some clientIP =>
            if negb (JSString.truthy clientIP) then
              Eff.ret (ReturnValue (new_Response "Forbidden" 403))
            else
              let identityUrl :=
                "https://" +:+ hostname +:+ "/cdn-cgi/access/get-identity" in
              do identityHeaders <-
                Eff.lift (headers_append [] "Cookie"
                            ("CF_Authorization=" +:+ cfAuthCookie)) ;;
              identity_check request clientIP identityUrl identityHeaders
          end
      end
  end.

(** [async function handleRequest(request)]: the events of one call and
    the promise handed to [event.respondWith]. *)
Definition handleRequest (request : Request) : list event * promise Response :=
  async (handleRequest_body request).

End Handler.

(** ** Words of the specification, for the statements below *)

(** The first two stages succeed: the request carries a [Cookie] header
    whose jar maps [CF_Authorization] to the non-empty [token], and a
    non-empty [CF-Connecting-IP] header [clientIP].  The headers are those of
    a [Headers] object, so their values are header values. *)
Definition passes_extraction (request : Request) (token clientIP : string) : Prop :=
  headers_wf (req_headers request) /\
  (exists cookieHeader,
      headers_get (req_headers request) "Cookie" = Some cookieHeader /\
      parseCookies cookieHeader !! "CF_Authorization" = Some token) /\
  token <> "" /\
  headers_get (req_headers request) "CF-Connecting-IP" = Some clientIP /\
  clientIP <> "".

(** The identity lookup as section 4.2 of the specification words it: a GET
    of the Access endpoint on the host of the inbound request, carrying the
    token as a cookie. *)
Definition identity_lookup (request : Request) (token : string) : FetchInput :=
  FetchURL ("https://" +:+ url_hostname (req_url request) +:+ "/cdn-cgi/access/get-identity")
           {| init_method := "GET";
              init_headers := [("Cookie", "CF_Authorization=" +:+ token)] |}.

(** The lookup answered with a 2xx response whose body parses to a value
    with the truthy [ip] member [identityIP]. *)
Definition lookup_yields (rt : Runtime) (request : Request) (token : string)
    (identityIP : js_value) : Prop :=
  exists identityResponse identityData,
    fetch rt (identity_lookup request token) = Fulfilled identityResponse /\
    resp_ok identityResponse = true /\
    JSON_parse rt (default "" (resp_body identityResponse)) = inr identityData /\
    member identityData "ip" = inr identityIP /\
    to_boolean identityIP = true.

(** The plain rejection of the first two stages. *)
Definition deny : Eff returned := Eff.ret (ReturnValue (new_Response "Forbidden" 403)).

(** The URL and the headers of the lookup the handler builds. *)
Definition identityUrl_of (request : Request) : string :=
  "https://" +:+ url_hostname (req_url request) +:+ "/cdn-cgi/access/get-identity".

Definition identityHeaders_of (token : string) : Headers :=
  [("Cookie", "CF_Authorization=" +:+ token)].

(** A string made of characters that satisfy [P] and not ending in white
    space: what every value of the cookie jar is, for the characters of the
    header. *)
Definition trimmed_with (P : ascii -> Prop) (value : string) : Prop :=
  Forall P (JSString.chars value) /\ JSString.ends_clean JSString.is_white_space value.

(** The calls to [fetch] among the events of a run, in order. *)
Fixpoint fetch_calls (events : list event) : list FetchInput :=
  match events with
  | [] => []
  | EvFetch input :: rest => input :: fetch_calls rest
  | _ :: rest => fetch_calls rest
  end.

(** The cookie entry as section 3 of the specification words it: the
    trimmed entry is cut at its first [=]; an entry without [=] is a name
    with the empty value. *)
Fixpoint cut_at_first (sep : ascii) (s : string) : string * string :=
  match s with
  | EmptyString => (EmptyString, EmptyString)
  | String c s' =>
      if Ascii.eqb c sep then (EmptyString, s')
      else let '(name, value) := cut_at_first sep s' in (String c name, value)
  end.

Definition cookie_pair (entry : string) : string * string :=
  cut_at_first "=" (JSString.trim entry).

(** The jar the specification describes: the pairs of the [;]-separated
    entries, those with an empty name dropped, a later pair replacing an
    earlier one of the same name. *)
Definition jar_of_pairs (pairs : list (string * string)) : gmap string string :=
  fold_left (fun jar p => if JSString.truthy (fst p) then <[fst p := snd p]> jar else jar)
            pairs ∅.

Definition cookie_jar_spec (cookieHeader : string) : gmap string string :=
  if JSString.truthy cookieHeader
  then jar_of_pairs (map cookie_pair (JSString.split ";" cookieHeader))
  else ∅.

(** ** Test doubles: a lookup service and an origin with scripted answers *)

Module Stub.

Definition dq : string := String (ascii_of_N 34) EmptyString.

(** The text [{"ip":"<address>"}]. *)
Definition identity_json (address : string) : string :=
  "{" +:+ dq +:+ "ip" +:+ dq +:+ ":" +:+ dq +:+ address +:+ dq +:+ "}".

(** The parser on the few texts the scripted lookups answer with; on them
    it agrees with [JSON.parse]. *)
Definition parse (text : string) : js_error + js_value :=
  if String.eqb text "{}" then inr (VObject [])
  else if String.eqb text "null" then inr VNull
  else if String.eqb text (identity_json "203.0.113.7")
       then inr (VObject [("ip", VString "203.0.113.7")])
  else if String.eqb text (identity_json "")
       then inr (VObject [("ip", VString "")])
  else inl (SyntaxError "Unexpected token in JSON").

Definition runtime (lookup origin : promise Response) : Runtime :=
  {| fetch := fun input =>
                match input with
                | FetchURL _ _ => lookup
                | FetchRequest _ => origin
                end;
     JSON_parse := parse |}.

Definition json_response (status : N) (text : string) : Response :=
  {| resp_status := status;
     resp_statusText := "";
     resp_headers := [("content-type", "application/json")];
     resp_body := Some text |}.

Definition origin_page : Response :=
  {| resp_status := 200;
     resp_statusText := "OK";
     resp_headers := [("content-type", "text/html"); ("x-origin", "app-1")];
     resp_body := Some "<h1>hello</h1>" |}.

Definition request (headers : Headers) : Request :=
  {| req_method := "POST";
     req_url := {| url_href := "https://app.example.com/orders?id=7";
                   url_hostname := "app.example.com" |};
     req_headers := headers;
     req_body := Some "qty=2" |}.

(** A request with a token, sent from 203.0.113.7. *)
Definition good_request : Request :=
  request [("Cookie", "a=1; CF_Authorization=tok123; b=x=y");
           ("CF-Connecting-IP", "203.0.113.7")].

(** The same token, replayed from 198.51.100.9. *)
Definition replayed_request : Request :=
  request [("Cookie", "a=1; CF_Authorization=tok123; b=x=y");
           ("CF-Connecting-IP", "198.51.100.9")].

Definition identity_ok : promise Response :=
  Fulfilled (json_response 200 (identity_json "203.0.113.7")).

End Stub.

(** ** Further words, for the properties beyond the specification *)

(** [cookie.trim().split('=')[0]] and [parts.slice(1).join('=')]: the name
    and the value that [parseCookies] reads from one entry. *)
Definition cookie_name (cookie : string) : option string :=
  JSString.split "=" (JSString.trim cookie) !! 0%nat.

Definition cookie_value (cookie : string) : string :=
  JSString.join "=" (JSString.slice1 (JSString.split "=" (JSString.trim cookie))).

(** The first character, when there is one, does not satisfy [p]. *)
Definition starts_clean (p : ascii -> bool) (s : string) : Prop :=
  forall c s', s = String c s' -> p c = false.

(** The shape of a pair that [parseCookies] can store: the name is not
    empty, is not [__proto__], holds no [=] and no [;] and does not begin
    with white space; the value holds no [;] and does not end in white
    space. *)
Definition jar_pair_ok (name value : string) : Prop :=
  name <> "" /\
  name <> "__proto__" /\
  ("="%char ∉ JSString.chars name) /\
  (";"%char ∉ JSString.chars name) /\
  (";"%char ∉ JSString.chars value) /\
  starts_clean JSString.is_white_space name /\
  JSString.ends_clean JSString.is_white_space value.

(** A [Cookie] header written the usual way: [name=value] pairs separated
    by a semicolon and a space. *)
Definition cookie_header_of (pairs : list (string * string)) : string :=
  JSString.join "; " (map (fun p => fst p +:+ "=" +:+ snd p) pairs).

(** How often a character occurs in a string. *)
Definition count_char (c : ascii) (s : string) : nat :=
  length (filter (fun d => d = c) (JSString.chars s)).

(** Console output among the events. *)
Definition is_console (ev : event) : bool :=
  match ev with
  | EvFetch _ => false
  | EvConsoleLog _ | EvConsoleError _ _ => true
  end.

(** The run of the handler forwarded the request to the origin. *)
Definition forwarded (rt : Runtime) (request : Request) : Prop :=
  FetchRequest request ∈ fetch_calls (handleRequest rt request).1.

(** The first two stages found the non-empty [token] and the non-empty
    client address [clientIP] in the request. *)
Definition extracted (request : Request) (token clientIP : string) : Prop :=
  (exists cookieHeader,
      headers_get (req_headers request) "Cookie" = Some cookieHeader /\
      parseCookies cookieHeader !! "CF_Authorization" = Some token) /\
  token <> "" /\
  headers_get (req_headers request) "CF-Connecting-IP" = Some clientIP /\
  clientIP <> "".

(** The ways a run of [handleRequest] can go, each with its events and its
    promise: one per [return] statement of the source, and one for the
    [append] that refuses its value. *)
Inductive run_kind (rt : Runtime) (request : Request)
  : list event * promise Response -> Prop :=
| RunNoCredential :
    (forall token clientIP, ~ extracted request token clientIP) ->
    run_kind rt request ([], Fulfilled (new_Response "Forbidden" 403))
| RunRefusedHeader (token clientIP : string) :
    extracted request token clientIP ->
    Http.valid_value ("CF_Authorization=" +:+ token) = false ->
    run_kind rt request ([], Rejected (TypeError "Invalid header value"))
| RunLookupDenied (token clientIP : string) (message : log_message) :
    extracted request token clientIP ->
    (forall clientIP' identityIP, message <> LogIpMismatch clientIP' identityIP) ->
    run_kind rt request
      ([EvFetch (identity_lookup request token); EvConsoleLog message],
       Fulfilled (new_Response "Forbidden" 403))
| RunMismatch (token clientIP : string) (identityIP : js_value) :
    extracted request token clientIP ->
    lookup_yields rt request token identityIP ->
    strict_equals_string clientIP identityIP = false ->
    run_kind rt request
      ([EvFetch (identity_lookup request token);
        EvConsoleLog (LogIpMismatch clientIP identityIP)],
       Fulfilled (new_Response "Forbidden)" 403))
| RunError (token clientIP : string) (e : js_error) :
    extracted request token clientIP ->
    run_kind rt request
      ([EvFetch (identity_lookup request token);
        EvConsoleError "Worker error during identity check:" e],
       Fulfilled (new_Response "Internal Server Error" 500))
| RunAdmit (token clientIP : string) :
    extracted request token clientIP ->
    lookup_yields rt request token (VString clientIP) ->
    run_kind rt request
      ([EvFetch (identity_lookup request token); EvFetch (FetchRequest request)],
       fetch rt (FetchRequest request)).

(** ** The listener

    [addEventListener('fetch', event => { event.respondWith(handleRequest(event.request)); })] *)

Record FetchEvent := { event_request : Request }.

(** One run of the listener: the events of the handler, and the promises
    the listener passed to [event.respondWith], in order. *)
Definition fetch_listener (rt : Runtime) (fetchEvent : FetchEvent)
  : list event * list (promise Response) :=
  let '(events, response) := handleRequest rt (event_request fetchEvent) in
  (events, [response]).

(** ** Test doubles with a scripted decoder *)

Module Script.

(** A decoder that knows the texts of a table and refuses every other. *)
Fixpoint parse (table : list (string * js_value)) (text : string) : js_error + js_value :=
  match table with
  | [] => inl (SyntaxError "Unexpected token in JSON")
  | (known, value) :: rest => if String.eqb known text then inr value else parse rest text
  end.

Definition runtime (table : list (string * js_value)) (lookup origin : promise Response)
  : Runtime :=
  {| fetch := fun input =>
                match input with
                | FetchURL _ _ => lookup
                | FetchRequest _ => origin
                end;
     JSON_parse := parse table |}.




(** The request of [Stub.good_request] as a GET of another path, with
    another body and one more header. *)
Definition other_request : Request :=
  {| req_method := "GET";
     req_url := {| url_href := "https://app.example.com/admin";
                   url_hostname := "app.example.com" |};
     req_headers := [("Accept", "text/html");
                     ("Cookie", "a=1; CF_Authorization=tok123; b=x=y");
                     ("CF-Connecting-IP", "203.0.113.7")];
     req_body := None |}.

End Script.

(** * Lemmas *)

(** ** Strings *)

Section StringFacts.

Import JSString.

Lemma truthy_true (s : string) : truthy s = true <-> s <> "".
Proof. destruct s; simpl; split; congruence. Qed.

Lemma truthy_false (s : string) : truthy s = false <-> s = "".
Proof. destruct s; simpl; split; congruence. Qed.

Lemma chars_app (a b : string) : chars (a +:+ b) = chars a ++ chars b.
Proof. induction a as [|c a IH]; simpl; [done | by rewrite IH]. Qed.

Lemma last_char_app (a b : string) : b <> "" -> last_char (a +:+ b) = last_char b.
Proof.
  intros Hb. induction a as [|c a IH]; simpl; [done |].
  rewrite IH. destruct (a +:+ b) eqn:E; [|done].
  destruct a, b; cbv in E; congruence.
Qed.

Lemma split_not_nil (sep : ascii) (s : string) : split sep s <> [].
Proof.
  destruct s as [|c s]; simpl; [done |].
  destruct (Ascii.eqb c sep); [done |]. by destruct (split sep s).
Qed.

(** Joining the pieces with the separator gives the string back. *)
Lemma join_split (sep : ascii) (s : string) :
  join (String sep "") (split sep s) = s.
Proof.
  induction s as [|c s IH]; simpl; [done |].
  destruct (Ascii.eqb_spec c sep) as [->|Hne].
  - pose proof (split_not_nil sep s) as Hnil.
    destruct (split sep s) as [|h t]; [done |].
    change (join (String sep "") ("" :: h :: t))
      with (String sep (join (String sep "") (h :: t))).
    by rewrite IH.
  - pose proof (split_not_nil sep s) as Hnil.
    destruct (split sep s) as [|h t]; [done |].
    rewrite <- IH. by destruct t.
Qed.

Lemma split_none (sep : ascii) (s : string) :
  sep ∉ chars s -> split sep s = [s].
Proof.
  induction s as [|c s IH]; simpl; intros Hsep; [done |].
  apply not_elem_of_cons in Hsep as [Hc Hs].
  destruct (Ascii.eqb_spec c sep); [congruence |]. by rewrite IH.
Qed.

(** Splitting distributes over a separator. *)
Lemma split_app (sep : ascii) (a b : string) :
  split sep (a +:+ String sep b) = split sep a ++ split sep b.
Proof.
  induction a as [|c a IH].
  - change (split sep (String sep b) = "" :: split sep b).
    simpl. by rewrite Ascii.eqb_refl.
  - change (split sep (String c (a +:+ String sep b))
            = split sep (String c a) ++ split sep b).
    simpl. rewrite IH. destruct (Ascii.eqb c sep); [done |].
    pose proof (split_not_nil sep a). by destruct (split sep a).
Qed.

(** [parts[0]] and [parts.slice(1).join(sep)] of [s.split(sep)] are the
    two halves of [s] cut at its first separator. *)
Lemma split_cut_at_first (sep : ascii) (s : string) :
  split sep s !! 0%nat = Some (cut_at_first sep s).1 /\
  join (String sep "") (slice1 (split sep s)) = (cut_at_first sep s).2.
Proof.
  induction s as [|c s [IHn IHv]]; simpl; [done |].
  destruct (Ascii.eqb c sep).
  - split; [done |]. apply join_split.
  - destruct (cut_at_first sep s) as [name value].
    destruct (split sep s) as [|h t]; simpl in *; [done |].
    split; [congruence | done].
Qed.

Lemma cut_at_first_app (sep : ascii) (name value : string) :
  sep ∉ chars name ->
  cut_at_first sep (name +:+ String sep value) = (name, value).
Proof.
  induction name as [|c name IH]; simpl; intros Hsep.
  - by rewrite Ascii.eqb_refl.
  - apply not_elem_of_cons in Hsep as [Hc Hname].
    destruct (Ascii.eqb_spec c sep); [congruence |].
    by rewrite IH.
Qed.

Lemma cut_at_first_none (sep : ascii) (s : string) :
  sep ∉ chars s -> cut_at_first sep s = (s, "").
Proof.
  induction s as [|c s IH]; simpl; intros Hsep; [done |].
  apply not_elem_of_cons in Hsep as [Hc Hs].
  destruct (Ascii.eqb_spec c sep); [congruence |].
  by rewrite IH.
Qed.

Lemma cut_at_first_name (sep : ascii) (s : string) :
  sep ∉ chars (cut_at_first sep s).1.
Proof.
  induction s as [|c s IH]; simpl; [apply not_elem_of_nil |].
  destruct (Ascii.eqb_spec c sep); simpl; [apply not_elem_of_nil |].
  destruct (cut_at_first sep s); simpl in *.
  apply not_elem_of_cons. split; [congruence | done].
Qed.

Section Content.

Variable P : ascii -> Prop.

Lemma cut_at_first_chars (sep : ascii) (s : string) :
  Forall P (chars s) ->
  Forall P (chars (cut_at_first sep s).1) /\ Forall P (chars (cut_at_first sep s).2).
Proof.
  induction s as [|c s IH]; simpl; intros H; [done |].
  apply Forall_cons in H as [Hc Hs].
  destruct (Ascii.eqb c sep); simpl; [done |].
  destruct (cut_at_first sep s); simpl in *.
  destruct (IH Hs). split; [by constructor | done].
Qed.

Lemma strip_start_chars (p : ascii -> bool) (s : string) :
  Forall P (chars s) -> Forall P (chars (strip_start p s)).
Proof.
  induction s as [|c s IH]; simpl; intros H; [done |].
  destruct (p c); [|done]. apply Forall_cons in H as [_ Hs]. auto.
Qed.

Lemma strip_end_chars (p : ascii -> bool) (s : string) :
  Forall P (chars s) -> Forall P (chars (strip_end p s)).
Proof.
  induction s as [|c s IH]; simpl; intros H; [done |].
  apply Forall_cons in H as [Hc Hs]. specialize (IH Hs).
  destruct (strip_end p s); [destruct (p c) |]; simpl; auto.
Qed.

Lemma strip_chars (p : ascii -> bool) (s : string) :
  Forall P (chars s) -> Forall P (chars (strip p s)).
Proof. intros H. by apply strip_end_chars, strip_start_chars. Qed.

Lemma split_chars (sep : ascii) (s : string) :
  Forall P (chars s) -> Forall (fun piece => Forall P (chars piece)) (split sep s).
Proof.
  induction s as [|c s IH]; simpl; intros H; [by repeat constructor |].
  apply Forall_cons in H as [Hc Hs]. specialize (IH Hs).
  destruct (Ascii.eqb c sep); [by constructor |].
  destruct (split sep s) as [|h t]; [by repeat constructor |].
  apply Forall_cons in IH as [Hh Ht]. by repeat constructor.
Qed.

Lemma join_chars (sep : string) (parts : list string) :
  Forall P (chars sep) ->
  Forall (fun piece => Forall P (chars piece)) parts ->
  Forall P (chars (join sep parts)).
Proof.
  intros Hsep. induction parts as [|p parts IH]; intros H; [constructor |].
  apply Forall_cons in H as [Hp Hparts]. specialize (IH Hparts).
  destruct parts as [|q parts]; [done |].
  change (join sep (p :: q :: parts)) with (p +:+ sep +:+ join sep (q :: parts)).
  rewrite !chars_app. by repeat apply Forall_app_2.
Qed.

End Content.

Lemma strip_end_ends_clean (p : ascii -> bool) (s : string) :
  ends_clean p (strip_end p s).
Proof.
  induction s as [|c s IH]; simpl; intros d; [done |].
  destruct (strip_end p s) as [|c' t] eqn:E.
  - destruct (p c) eqn:Hc; simpl; [done | congruence].
  - intros Hd. apply IH. exact Hd.
Qed.

Lemma strip_ends_clean (p : ascii -> bool) (s : string) : ends_clean p (strip p s).
Proof. apply strip_end_ends_clean. Qed.

Lemma cut_at_first_ends_clean (p : ascii -> bool) (sep : ascii) (s : string) :
  ends_clean p s -> ends_clean p (cut_at_first sep s).2.
Proof.
  induction s as [|c s IH]; simpl; intros H; [done |].
  assert (Hs : s <> "" -> ends_clean p s).
  { intros Hne d Hd. apply H. by destruct s. }
  destruct (Ascii.eqb c sep); simpl.
  - destruct s; [done | by apply Hs].
  - destruct (cut_at_first sep s) as [name value] eqn:E; simpl in *.
    destruct s; [by inversion E | by apply IH, Hs].
Qed.

Lemma strip_end_id (p : ascii -> bool) (s : string) :
  ends_clean p s -> strip_end p s = s.
Proof.
  induction s as [|c s IH]; simpl; intros H; [done |].
  destruct s as [|c' s].
  - simpl. by rewrite (H c).
  - rewrite IH; [done |]. intros d Hd. by apply H.
Qed.

Lemma strip_id (p : ascii -> bool) (c : ascii) (s : string) :
  p c = false -> ends_clean p (String c s) -> strip p (String c s) = String c s.
Proof.
  intros Hc H. unfold strip. simpl strip_start. rewrite Hc. by apply strip_end_id.
Qed.

End StringFacts.

(** ** The cookie jar *)

Section CookieFacts.

Import JSString.

(** One entry, read through the specification's cut at the first [=]. *)
Lemma parseCookies_entry_pair (cookies : gmap string string) (entry : string) :
  parseCookies_entry cookies entry =
    if truthy (cookie_pair entry).1
    then object_set cookies (cookie_pair entry).1 (cookie_pair entry).2
    else cookies.
Proof.
  unfold parseCookies_entry, cookie_pair.
  destruct (split_cut_at_first "=" (trim entry)) as [Hname Hvalue].
  change (join "=") with (join (String "=" "")).
  by rewrite Hname, Hvalue.
Qed.

Lemma object_set_proto (cookies : gmap string string) (value : string) :
  object_set cookies "__proto__" value = cookies.
Proof. reflexivity. Qed.

Lemma object_set_other (cookies : gmap string string) (name value : string) :
  name <> "__proto__" -> object_set cookies name value = <[name := value]> cookies.
Proof.
  intros Hne. unfold object_set.
  destruct (String.eqb_spec name "__proto__"); [done | reflexivity].
Qed.

Lemma parseCookies_fold (entries : list string) (jar : gmap string string) :
  fold_left parseCookies_entry entries (delete "__proto__" jar) =
  delete "__proto__"
    (fold_left (fun jar p => if truthy (fst p) then <[fst p := snd p]> jar else jar)
               (map cookie_pair entries) jar).
Proof.
  revert jar. induction entries as [|entry entries IH]; intros jar; simpl; [done |].
  rewrite parseCookies_entry_pair.
  destruct (truthy (cookie_pair entry).1); [| apply IH].
  rewrite <- IH. f_equal. unfold object_set.
  destruct (String.eqb_spec (cookie_pair entry).1 "__proto__") as [->|Hne].
  - by rewrite delete_insert_eq.
  - by rewrite delete_insert_ne.
Qed.

(** The jar of the code is the jar of the specification without the name
    [__proto__]. *)
Lemma parseCookies_spec (cookieHeader : string) :
  parseCookies cookieHeader = delete "__proto__" (cookie_jar_spec cookieHeader).
Proof.
  unfold parseCookies, cookie_jar_spec, jar_of_pairs.
  destruct (truthy cookieHeader); [| by rewrite delete_empty].
  rewrite <- parseCookies_fold. by rewrite delete_empty.
Qed.

Lemma parseCookies_lookup (cookieHeader name : string) :
  name <> "__proto__" ->
  parseCookies cookieHeader !! name = cookie_jar_spec cookieHeader !! name.
Proof. intros Hne. rewrite parseCookies_spec. by apply lookup_delete_ne. Qed.

Lemma parseCookies_proto (cookieHeader : string) :
  parseCookies cookieHeader !! "__proto__" = None.
Proof. rewrite parseCookies_spec. apply lookup_delete_eq. Qed.

Lemma parseCookies_empty : parseCookies "" = ∅.
Proof. reflexivity. Qed.

(** The guard on the empty header changes nothing: the empty header has
    one entry, with the empty name. *)
Lemma parseCookies_unguarded (cookieHeader : string) :
  parseCookies cookieHeader = fold_left parseCookies_entry (split ";" cookieHeader) ∅.
Proof. unfold parseCookies. by destruct cookieHeader. Qed.

(** One more entry at the end of the header is one more assignment. *)
Lemma parseCookies_snoc (cookieHeader entry : string) :
  ";"%char ∉ chars entry ->
  parseCookies (cookieHeader +:+ String ";" entry) =
  parseCookies_entry (parseCookies cookieHeader) entry.
Proof.
  intros Hentry. rewrite !parseCookies_unguarded, split_app, fold_left_app.
  by rewrite (split_none _ _ Hentry).
Qed.

(** The last occurrence of a name decides its value. *)
Lemma parseCookies_last_wins (cookieHeader entry name value : string) :
  ";"%char ∉ chars entry ->
  cookie_pair entry = (name, value) ->
  name <> "" ->
  name <> "__proto__" ->
  parseCookies (cookieHeader +:+ String ";" entry) !! name = Some value.
Proof.
  intros Hentry Hpair Hname Hproto.
  rewrite (parseCookies_snoc _ _ Hentry), parseCookies_entry_pair, Hpair. simpl.
  apply truthy_true in Hname. rewrite Hname.
  rewrite (object_set_other _ _ _ Hproto). apply lookup_insert_eq.
Qed.

(** An entry leaves the other names alone. *)
Lemma parseCookies_entry_other (cookies : gmap string string) (entry name : string) :
  (cookie_pair entry).1 <> name ->
  parseCookies_entry cookies entry !! name = cookies !! name.
Proof.
  intros Hne. rewrite parseCookies_entry_pair.
  destruct (truthy (cookie_pair entry).1); [| done].
  unfold object_set. destruct (String.eqb _ _); [done |].
  by apply lookup_insert_ne.
Qed.

(** Every value of the jar is made of characters of the header and does
    not end in white space. *)
Section Values.

Variable P : ascii -> Prop.

Local Abbreviation good := (trimmed_with P).

Lemma cookie_pair_value (entry : string) :
  Forall P (chars entry) -> good (cookie_pair entry).2.
Proof.
  intros H. unfold cookie_pair, trim. split.
  - by apply cut_at_first_chars, strip_chars.
  - apply cut_at_first_ends_clean, strip_ends_clean.
Qed.

Lemma parseCookies_fold_values (entries : list string) (jar : gmap string string) :
  Forall (fun entry => Forall P (chars entry)) entries ->
  map_Forall (fun _ value => good value) jar ->
  map_Forall (fun _ value => good value) (fold_left parseCookies_entry entries jar).
Proof.
  revert jar. induction entries as [|entry entries IH]; intros jar He Hjar; [done |].
  apply Forall_cons in He as [Hentry Hentries]. simpl.
  apply IH; [done |]. rewrite parseCookies_entry_pair.
  destruct (truthy (cookie_pair entry).1); [| done].
  unfold object_set. destruct (String.eqb _ _); [done |].
  apply map_Forall_insert_2; [| done]. by apply cookie_pair_value.
Qed.

Lemma parseCookies_value (cookieHeader name value : string) :
  Forall P (chars cookieHeader) ->
  parseCookies cookieHeader !! name = Some value ->
  Forall P (chars value) /\ ends_clean is_white_space value.
Proof.
  intros H Hlookup. unfold parseCookies in Hlookup.
  destruct (truthy cookieHeader); [| by rewrite lookup_empty in Hlookup].
  eapply (map_Forall_lookup_1 (fun _ value => good value)); [| exact Hlookup].
  apply parseCookies_fold_values; [by apply split_chars | apply map_Forall_empty].
Qed.

End Values.

End CookieFacts.

(** ** Headers *)

Section HeaderFacts.

Import JSString.

Lemma valid_value_chars (value : string) :
  Is_true (Http.valid_value value) <->
  Forall (fun c => Http.is_value_char c = true) (chars value).
Proof.
  unfold Http.valid_value. rewrite forallb_True.
  split; intros H; (eapply Forall_impl; [exact H |]); intros c; by rewrite Is_true_true.
Qed.

(** What [get] returns from a well-formed header list is a header value. *)
Lemma headers_get_valid (headers : Headers) (name value : string) :
  headers_wf headers ->
  headers_get headers name = Some value ->
  Forall (fun c => Http.is_value_char c = true) (chars value).
Proof.
  intros Hwf. unfold headers_get.
  assert (Hfound : Forall (fun h => Is_true (Http.valid_value (snd h)))
                     (filter (fun h => Is_true (Http.name_matches (fst h) name)) headers)).
  { apply Forall_forall. intros h Hin. apply list_elem_of_filter in Hin as [_ Hin].
    revert h Hin. by apply Forall_forall. }
  destruct (filter _ headers) as [|h found]; [done |].
  intros [= <-]. apply (join_chars _ ", " (map snd (h :: found))).
  - by repeat constructor.
  - apply Forall_map. eapply Forall_impl; [exact Hfound |].
    intros ?. by rewrite valid_value_chars.
Qed.

Lemma http_whitespace_is_white_space (c : ascii) :
  Http.is_http_whitespace c = true -> is_white_space c = true.
Proof.
  unfold Http.is_http_whitespace, is_white_space.
  destruct (N_of_ascii c) as [|p]; [done |].
  repeat (destruct p as [p|p|]; try done).
Qed.

(** [append] neither changes nor refuses the cookie built from a token
    that the jar of a well-formed header gave. *)
Lemma append_token (cookieHeader token : string) :
  Forall (fun c => Http.is_value_char c = true) (chars cookieHeader) ->
  parseCookies cookieHeader !! "CF_Authorization" = Some token ->
  token <> "" ->
  headers_append [] "Cookie" ("CF_Authorization=" +:+ token)
  = inr [("Cookie", "CF_Authorization=" +:+ token)].
Proof.
  intros Hvalid Hjar Hne.
  destruct (parseCookies_value _ _ _ _ Hvalid Hjar) as [Hchars Hclean].
  unfold headers_append.
  assert (Hnorm : Http.normalize ("CF_Authorization=" +:+ token)
                  = "CF_Authorization=" +:+ token).
  { apply (strip_id Http.is_http_whitespace "C"); [done |].
    intros c Hc.
    assert (Hlast : last_char token = Some c).
    { rewrite <- (last_char_app "CF_Authorization=" token Hne). exact Hc. }
    destruct (Http.is_http_whitespace c) eqn:E; [| done].
    apply http_whitespace_is_white_space in E. by rewrite (Hclean c Hlast) in E. }
  rewrite Hnorm.
  assert (Hv : Is_true (Http.valid_value ("CF_Authorization=" +:+ token))).
  { apply valid_value_chars. rewrite chars_app.
    apply Forall_app_2; [by repeat constructor | done]. }
  apply Is_true_true in Hv. by rewrite Hv.
Qed.

End HeaderFacts.

(** ** The handler *)

Section EffFacts.

Lemma bind_ret {A B} (a : A) (k : A -> Eff B) : Eff.bind (Eff.ret a) k = k a.
Proof. unfold Eff.bind, Eff.ret. by destruct (k a). Qed.

Lemma bind_lift_inr {A B} (a : A) (k : A -> Eff B) :
  Eff.bind (Eff.lift (inr a)) k = k a.
Proof. apply bind_ret. Qed.

Lemma fetch_calls_app (evs evs' : list event) :
  fetch_calls (evs ++ evs') = fetch_calls evs ++ fetch_calls evs'.
Proof.
  induction evs as [|ev evs IH]; simpl; [done |].
  destruct ev; simpl; by rewrite IH.
Qed.

End EffFacts.

Section HandlerFacts.

Variable rt : Runtime.

(** The first two stages either deny, without any event, or hand the
    token and the client address to the resolver. *)
Lemma handleRequest_body_cases (request : Request) :
  (handleRequest_body rt request = deny /\
   (headers_get (req_headers request) "Cookie" = None \/
    headers_get (req_headers request) "Cookie" = Some "" \/
    (exists cookieHeader,
        headers_get (req_headers request) "Cookie" = Some cookieHeader /\
        (parseCookies cookieHeader !! "CF_Authorization" = None \/
         parseCookies cookieHeader !! "CF_Authorization" = Some "")) \/
    headers_get (req_headers request) "CF-Connecting-IP" = None \/
    headers_get (req_headers request) "CF-Connecting-IP" = Some "")) \/
  (exists cookieHeader token clientIP,
      headers_get (req_headers request) "Cookie" = Some cookieHeader /\
      parseCookies cookieHeader !! "CF_Authorization" = Some token /\
      token <> "" /\
      headers_get (req_headers request) "CF-Connecting-IP" = Some clientIP /\
      clientIP <> "" /\
      handleRequest_body rt request =
        Eff.bind (Eff.lift (headers_append [] "Cookie" ("CF_Authorization=" +:+ token)))
                 (identity_check rt request clientIP (identityUrl_of request))).
Proof.
  unfold handleRequest_body, object_get.
  destruct (headers_get (req_headers request) "Cookie") as [cookieHeader|]; [| left; auto].
  destruct cookieHeader as [|c0 cookieHeader]; [left; auto |].
  set (header := String c0 cookieHeader). simpl negb. cbv iota.
  destruct (parseCookies header !! "CF_Authorization") as [token|] eqn:Hjar;
    [| left; split; [done |]; right; right; left; eauto].
  destruct token as [|t0 token];
    [left; split; [done |]; right; right; left; eauto |].
  simpl negb. cbv iota.
  destruct (headers_get (req_headers request) "CF-Connecting-IP") as [clientIP|];
    [| left; auto 10].
  destruct clientIP as [|i0 clientIP]; [left; auto 10 |].
  right. exists header, (String t0 token), (String i0 clientIP).
  repeat split; done.
Qed.

(** With the first two stages passed, the handler is the identity check
    with the lookup of the specification. *)
Lemma handleRequest_body_resolver (request : Request) (token clientIP : string) :
  passes_extraction request token clientIP ->
  handleRequest_body rt request =
    identity_check rt request clientIP (identityUrl_of request) (identityHeaders_of token).
Proof.
  intros (Hwf & (cookieHeader & Hcookie & Hjar) & Htoken & Hip & Hclient).
  destruct (handleRequest_body_cases request)
    as [[_ Hdeny] | (cookieHeader' & token' & clientIP' & Hc & Hj & _ & Hi & _ & ->)].
  - exfalso. rewrite Hcookie, Hip in Hdeny.
    destruct Hdeny as [H | [H | [(h & H & Hh) | [H | H]]]].
    + done.
    + injection H as ->. rewrite parseCookies_empty in Hjar. by rewrite lookup_empty in Hjar.
    + injection H as <-. rewrite Hjar in Hh. destruct Hh as [? | [= ->]]; done.
    + done.
    + by injection H as ->.
  - rewrite Hcookie in Hc. injection Hc as <-.
    rewrite Hjar in Hj. injection Hj as <-.
    rewrite Hip in Hi. injection Hi as <-.
    rewrite (append_token cookieHeader token); [apply bind_lift_inr | | done..].
    by eapply headers_get_valid.
Qed.

(** *** The branches of the identity check *)

Section Branches.

Variables (request : Request) (token clientIP : string).

Local Abbreviation lookup := (identity_lookup request token).

Local Abbreviation check :=
  (identity_check rt request clientIP (identityUrl_of request) (identityHeaders_of token)).

Lemma check_rejected (e : js_error) :
  fetch rt lookup = Rejected e ->
  check = ([EvFetch lookup; EvConsoleError "Worker error during identity check:" e],
           Normal (ReturnValue (new_Response "Internal Server Error" 500))).
Proof.
  intros H. unfold identity_check, call_fetch.
  unfold identity_lookup, identityUrl_of, identityHeaders_of in *.
  cbn [Eff.bind Eff.emit Eff.ret app]. rewrite H. reflexivity.
Qed.

Lemma check_not_ok (identityResponse : Response) :
  fetch rt lookup = Fulfilled identityResponse ->
  resp_ok identityResponse = false ->
  check = ([EvFetch lookup; EvConsoleLog (LogLookupFailed (resp_status identityResponse))],
           Normal (ReturnValue (new_Response "Forbidden" 403))).
Proof.
  intros H Hok. unfold identity_check, call_fetch.
  unfold identity_lookup, identityUrl_of, identityHeaders_of in *.
  cbn [Eff.bind Eff.emit Eff.ret app]. rewrite H.
  cbn [Eff.await Eff.bind Eff.ret app]. rewrite Hok. reflexivity.
Qed.

Lemma check_unparseable (identityResponse : Response) (e : js_error) :
  fetch rt lookup = Fulfilled identityResponse ->
  resp_ok identityResponse = true ->
  JSON_parse rt (default "" (resp_body identityResponse)) = inl e ->
  check = ([EvFetch lookup; EvConsoleError "Worker error during identity check:" e],
           Normal (ReturnValue (new_Response "Internal Server Error" 500))).
Proof.
  intros H Hok Hjson. unfold identity_check, call_fetch.
  unfold identity_lookup, identityUrl_of, identityHeaders_of in *.
  cbn [Eff.bind Eff.emit Eff.ret app]. rewrite H.
  cbn [Eff.await Eff.bind Eff.ret app]. rewrite Hok.
  unfold response_json. rewrite Hjson. reflexivity.
Qed.

Lemma check_member_throws (identityResponse : Response) (data : js_value) (e : js_error) :
  fetch rt lookup = Fulfilled identityResponse ->
  resp_ok identityResponse = true ->
  JSON_parse rt (default "" (resp_body identityResponse)) = inr data ->
  member data "ip" = inl e ->
  check = ([EvFetch lookup; EvConsoleError "Worker error during identity check:" e],
           Normal (ReturnValue (new_Response "Internal Server Error" 500))).
Proof.
  intros H Hok Hjson Hm. unfold identity_check, call_fetch.
  unfold identity_lookup, identityUrl_of, identityHeaders_of in *.
  cbn [Eff.bind Eff.emit Eff.ret app]. rewrite H.
  cbn [Eff.await Eff.bind Eff.ret app]. rewrite Hok.
  unfold response_json. rewrite Hjson.
  cbn [negb Eff.await Eff.bind Eff.ret app]. rewrite Hm. reflexivity.
Qed.

Lemma check_no_ip (identityResponse : Response) (data identityIP : js_value) :
  fetch rt lookup = Fulfilled identityResponse ->
  resp_ok identityResponse = true ->
  JSON_parse rt (default "" (resp_body identityResponse)) = inr data ->
  member data "ip" = inr identityIP ->
  to_boolean identityIP = false ->
  check = ([EvFetch lookup; EvConsoleLog LogMissingIpClaim],
           Normal (ReturnValue (new_Response "Forbidden" 403))).
Proof.
  intros H Hok Hjson Hm Hip. unfold identity_check, call_fetch.
  unfold identity_lookup, identityUrl_of, identityHeaders_of in *.
  cbn [Eff.bind Eff.emit Eff.ret app]. rewrite H.
  cbn [Eff.await Eff.bind Eff.ret app]. rewrite Hok.
  unfold response_json. rewrite Hjson.
  cbn [negb Eff.await Eff.bind Eff.ret app]. rewrite Hm.
  cbn [Eff.lift Eff.bind Eff.ret app]. rewrite Hip. reflexivity.
Qed.

Lemma check_compared (identityIP : js_value) :
  lookup_yields rt request token identityIP ->
  check =
    if strict_equals_string clientIP identityIP
    then ([EvFetch lookup; EvFetch (FetchRequest request)],
          Normal (ReturnPromise (fetch rt (FetchRequest request))))
    else ([EvFetch lookup; EvConsoleLog (LogIpMismatch clientIP identityIP)],
          Normal (ReturnValue (new_Response "Forbidden)" 403))).
Proof.
  intros (identityResponse & data & H & Hok & Hjson & Hm & Hip).
  unfold identity_check, call_fetch.
  unfold identity_lookup, identityUrl_of, identityHeaders_of in *.
  cbn [Eff.bind Eff.emit Eff.ret app]. rewrite H.
  cbn [Eff.await Eff.bind Eff.ret app]. rewrite Hok.
  unfold response_json. rewrite Hjson.
  cbn [negb Eff.await Eff.bind Eff.ret app]. rewrite Hm.
  cbn [Eff.lift Eff.bind Eff.ret app]. rewrite Hip.
  by destruct (strict_equals_string clientIP identityIP).
Qed.

End Branches.

End HandlerFacts.

Section RunFacts.

Variable rt : Runtime.

(** Every run of the identity check starts with the lookup and completes
    normally: with a response of its own and no further call, or with the
    promise of the origin call. *)
Lemma identity_check_cases (request : Request) (token clientIP : string) :
  exists events result,
    identity_check rt request clientIP (identityUrl_of request) (identityHeaders_of token)
    = (EvFetch (identity_lookup request token) :: events, Normal result) /\
    ((fetch_calls events = [] /\ exists response, result = ReturnValue response) \/
     (events = [EvFetch (FetchRequest request)] /\
      result = ReturnPromise (fetch rt (FetchRequest request)))).
Proof.
  destruct (fetch rt (identity_lookup request token)) as [identityResponse|e] eqn:Hfetch.
  2: { rewrite (check_rejected _ _ _ _ e Hfetch). do 2 eexists. split; [done |]. left. eauto. }
  destruct (resp_ok identityResponse) eqn:Hok.
  2: { rewrite (check_not_ok _ _ _ _ _ Hfetch Hok). do 2 eexists. split; [done |]. left. eauto. }
  destruct (JSON_parse rt (default "" (resp_body identityResponse))) as [e|data] eqn:Hjson.
  { rewrite (check_unparseable _ _ _ _ _ e Hfetch Hok Hjson).
    do 2 eexists. split; [done |]. left. eauto. }
  destruct (member data "ip") as [e|identityIP] eqn:Hmember.
  { rewrite (check_member_throws _ _ _ _ _ _ e Hfetch Hok Hjson Hmember).
    do 2 eexists. split; [done |]. left. eauto. }
  destruct (to_boolean identityIP) eqn:Hip.
  2: { rewrite (check_no_ip _ _ _ _ _ _ _ Hfetch Hok Hjson Hmember Hip).
       do 2 eexists. split; [done |]. left. eauto. }
  rewrite (check_compared rt request token clientIP identityIP)
    by (exists identityResponse, data; done).
  destruct (strict_equals_string clientIP identityIP);
    do 2 eexists; (split; [done |]); [right | left]; eauto.
Qed.

(** A request with well-formed headers is answered with a response,
    unless the origin call was made: then the handler's promise is the
    promise of that call. *)
Lemma handleRequest_settles (request : Request) :
  headers_wf (req_headers request) ->
  (exists response, (handleRequest rt request).2 = Fulfilled response) \/
  (FetchRequest request ∈ fetch_calls (handleRequest rt request).1 /\
   (handleRequest rt request).2 = fetch rt (FetchRequest request)).
Proof.
  intros Hwf. unfold handleRequest.
  destruct (handleRequest_body_cases rt request)
    as [[-> _] | (cookieHeader & token & clientIP & Hc & Hj & Ht & Hi & Hcl & _)].
  { left. by eexists. }
  rewrite (handleRequest_body_resolver rt request token clientIP)
    by (repeat split; eauto).
  destruct (identity_check_cases request token clientIP)
    as (events & result & -> & [[_ [response ->]] | [-> ->]]).
  - left. by eexists.
  - right. simpl. split; [| done]. set_solver.
Qed.

End RunFacts.

(** ** Properties of the specification *)

(** Closing the hypotheses about the scripted requests by evaluation. *)
Ltac stub_extraction :=
  unfold passes_extraction;
  split; [repeat constructor |];
  split; [eexists; split; [reflexivity | vm_compute; reflexivity] |];
  repeat split; (reflexivity || discriminate).

Ltac stub_lookup :=
  unfold lookup_yields; do 2 eexists; repeat split; reflexivity.

(** C1, as amended.  Once the resolver stage is reached and the lookup
    call has answered, no failure of the resolver crashes the handler: a
    non-2xx answer gives 403 [Forbidden]; a 2xx answer whose body parses to a
    value with a missing or falsy (for instance empty) [ip] member gives 403
    [Forbidden], in particular the body [{}]; a 2xx answer whose body is
    missing or does not parse, or is [null], is caught and gives 500
    [Internal Server Error], not 403. *)
Theorem resolver_failure_responses (rt : Runtime) (request : Request)
    (token clientIP : string) (identityResponse : Response) :
  passes_extraction request token clientIP ->
  fetch rt (identity_lookup request token) = Fulfilled identityResponse ->
  let body := default "" (resp_body identityResponse) in
  let settled := (handleRequest rt request).2 in
  (resp_ok identityResponse = false ->
   settled = Fulfilled (new_Response "Forbidden" 403)) /\
  (resp_ok identityResponse = true ->
   forall identityData identityIP,
     JSON_parse rt body = inr identityData ->
     member identityData "ip" = inr identityIP ->
     to_boolean identityIP = false ->
     settled = Fulfilled (new_Response "Forbidden" 403)) /\
  (resp_ok identityResponse = true ->
   body = "{}" ->
   JSON_parse rt "{}" = inr (VObject []) ->
   settled = Fulfilled (new_Response "Forbidden" 403)) /\
  (resp_ok identityResponse = true ->
   forall e,
     JSON_parse rt body = inl e \/
     (exists identityData,
         JSON_parse rt body = inr identityData /\ member identityData "ip" = inl e) ->
     settled = Fulfilled (new_Response "Internal Server Error" 500)).
Proof.
  intros Hpass Hfetch body settled. subst body settled. unfold handleRequest.
  rewrite (handleRequest_body_resolver rt request token clientIP Hpass).
  repeat split.
  - intros Hok. by rewrite (check_not_ok _ _ _ _ _ Hfetch Hok).
  - intros Hok data ip Hjson Hmember Hip.
    by rewrite (check_no_ip _ _ _ _ _ _ _ Hfetch Hok Hjson Hmember Hip).
  - intros Hok Hbody Hjson. rewrite <- Hbody in Hjson.
    by rewrite (check_no_ip _ _ _ _ _ (VObject []) VUndefined Hfetch Hok Hjson).
  - intros Hok e [Hjson | (data & Hjson & Hmember)].
    + by rewrite (check_unparseable _ _ _ _ _ e Hfetch Hok Hjson).
    + by rewrite (check_member_throws _ _ _ _ _ _ e Hfetch Hok Hjson Hmember).
Qed.

(** The amended C1 at the replayed request, the lookup answering 200 with
    the body [{}]. *)
Lemma resolver_failure_responses_witness :
  let rt := Stub.runtime (Fulfilled (Stub.json_response 200 "{}"))
                         (Fulfilled Stub.origin_page) in
  passes_extraction Stub.replayed_request "tok123" "198.51.100.9" /\
  (handleRequest rt Stub.replayed_request).2 = Fulfilled (new_Response "Forbidden" 403).
Proof.
  intros rt.
  assert (Hpass : passes_extraction Stub.replayed_request "tok123" "198.51.100.9")
    by stub_extraction.
  split; [exact Hpass |].
  refine (proj1 (proj2 (proj2
    (resolver_failure_responses rt Stub.replayed_request "tok123" "198.51.100.9"
       (Stub.json_response 200 "{}") Hpass _))) _ _ _); reflexivity.
Defined.

(** C1 as stated fails: a 200 lookup answer whose body does not parse is
    answered with 500 [Internal Server Error], not with 403. *)
Lemma unparseable_lookup_body_is_500 :
  let rt := Stub.runtime (Fulfilled (Stub.json_response 200 "<html>login</html>"))
                         (Fulfilled Stub.origin_page) in
  JSON_parse rt "<html>login</html>" = inl (SyntaxError "Unexpected token in JSON") /\
  (exists response,
      (handleRequest rt Stub.replayed_request).2 = Fulfilled response /\
      resp_status response = 500 /\
      resp_body response = Some "Internal Server Error") /\
  ~ (exists response,
        (handleRequest rt Stub.replayed_request).2 = Fulfilled response /\
        resp_status response = 403).
Proof.
  intros rt. split; [reflexivity |]. split.
  - eexists. split; [vm_compute; reflexivity |]. by split.
  - intros (response & Hrun & Hstatus). vm_compute in Hrun.
    injection Hrun as <-. discriminate Hstatus.
Qed.

(** C2 fails on the code: with the verdict Admit and the origin call
    rejecting, the promise of [handleRequest] is rejected with the reason of
    that call.  The [return fetch(request)] inside the [try] block hands the
    promise over without awaiting it, so the [catch] clause never sees the
    rejection. *)
Theorem origin_rejection_propagates :
  let rt := Stub.runtime Stub.identity_ok (Rejected (Error "Network connection lost")) in
  passes_extraction Stub.good_request "tok123" "203.0.113.7" /\
  handleRequest rt Stub.good_request =
    ([EvFetch (identity_lookup Stub.good_request "tok123");
      EvFetch (FetchRequest Stub.good_request)],
     Rejected (Error "Network connection lost")).
Proof. intros rt. split; [stub_extraction | vm_compute; reflexivity]. Qed.

(** C3.  With token and client address present and the lookup yielding a
    non-empty [ip] that differs from the client address, the response is 403
    with the body [Forbidden)], which is not the body [Forbidden] of the
    other rejections. *)
Theorem address_mismatch_forbidden (rt : Runtime) (request : Request)
    (token clientIP identityIP : string) :
  passes_extraction request token clientIP ->
  lookup_yields rt request token (VString identityIP) ->
  identityIP <> "" ->
  clientIP <> identityIP ->
  exists response,
    (handleRequest rt request).2 = Fulfilled response /\
    resp_status response = 403 /\
    resp_body response = Some "Forbidden)" /\
    resp_body response <> resp_body (new_Response "Forbidden" 403).
Proof.
  intros Hpass Hlookup _ Hne. unfold handleRequest.
  rewrite (handleRequest_body_resolver rt request token clientIP Hpass).
  rewrite (check_compared rt request token clientIP _ Hlookup). simpl.
  destruct (String.eqb_spec clientIP identityIP); [done |].
  eexists. by repeat split.
Qed.

Lemma address_mismatch_forbidden_witness :
  let rt := Stub.runtime Stub.identity_ok (Fulfilled Stub.origin_page) in
  exists response,
    (handleRequest rt Stub.replayed_request).2 = Fulfilled response /\
    resp_status response = 403 /\
    resp_body response = Some "Forbidden)" /\
    resp_body response <> resp_body (new_Response "Forbidden" 403).
Proof.
  intros rt.
  apply (address_mismatch_forbidden rt Stub.replayed_request
           "tok123" "198.51.100.9" "203.0.113.7");
    [stub_extraction | stub_lookup | discriminate | discriminate].
Defined.

(** C4.  For a non-empty observed address and a non-empty bound address the
    comparison is string equality and nothing else: the request is admitted
    (forwarded to the origin) exactly when the two strings are equal, and
    denied with the mismatch response otherwise. *)
Theorem comparator_exact_equality (rt : Runtime) (request : Request)
    (token observed bound : string) :
  passes_extraction request token observed ->
  lookup_yields rt request token (VString bound) ->
  (strict_equals_string observed (VString bound) = true <-> observed = bound) /\
  (FetchRequest request ∈ fetch_calls (handleRequest rt request).1 <-> observed = bound) /\
  (observed = bound ->
   handleRequest rt request =
     ([EvFetch (identity_lookup request token); EvFetch (FetchRequest request)],
      fetch rt (FetchRequest request))) /\
  (observed <> bound ->
   handleRequest rt request =
     ([EvFetch (identity_lookup request token);
       EvConsoleLog (LogIpMismatch observed (VString bound))],
      Fulfilled (new_Response "Forbidden)" 403))).
Proof.
  intros Hpass Hlookup. unfold handleRequest.
  rewrite (handleRequest_body_resolver rt request token observed Hpass).
  rewrite (check_compared rt request token observed _ Hlookup). simpl.
  split; [apply String.eqb_eq |].
  destruct (String.eqb_spec observed bound) as [Heq | Hne]; simpl.
  - split; [split; [done | set_solver] |]. split; done.
  - split; [split; [| done] |]; [| split; done].
    intros Hin. apply list_elem_of_singleton in Hin. discriminate Hin.
Qed.

Lemma comparator_exact_equality_witness :
  let rt := Stub.runtime Stub.identity_ok (Fulfilled Stub.origin_page) in
  FetchRequest Stub.good_request ∈ fetch_calls (handleRequest rt Stub.good_request).1
  <-> "203.0.113.7" = "203.0.113.7".
Proof.
  intros rt.
  refine (proj1 (proj2
    (comparator_exact_equality rt Stub.good_request "tok123" "203.0.113.7" "203.0.113.7"
       _ _))); [stub_extraction | stub_lookup].
Defined.

(** The header of the specification's example: the token is [tok123], and
    the value of [b] keeps its [=]. *)
Lemma parseCookies_example :
  parseCookies "a=1; CF_Authorization=tok123; b=x=y" !! "CF_Authorization" = Some "tok123" /\
  parseCookies "a=1; CF_Authorization=tok123; b=x=y" !! "b" = Some "x=y" /\
  parseCookies "a=1; CF_Authorization=tok123; b=x=y" !! "a" = Some "1".
Proof. repeat split; vm_compute; reflexivity. Qed.

(** Empty names are dropped, the last of two entries of one name wins, and
    an entry without [=] has the empty value. *)
Lemma parseCookies_edge_cases :
  parseCookies "=zz; a=1; flag; a=2" !! "" = None /\
  parseCookies "=zz; a=1; flag; a=2" !! "a" = Some "2" /\
  parseCookies "=zz; a=1; flag; a=2" !! "flag" = Some "".
Proof. repeat split; vm_compute; reflexivity. Qed.

(** C5 fails on the code for one name.  The jar the specification
    describes maps [__proto__] to [x] for the header [__proto__=x]; the
    object [parseCookies] returns has no such entry, since an assignment to
    [__proto__] of an ordinary object does not create a property.  For every
    other name the two jars agree ([parseCookies_spec]). *)
Theorem parseCookies_drops_proto :
  cookie_jar_spec "__proto__=x" !! "__proto__" = Some "x" /\
  parseCookies "__proto__=x" !! "__proto__" = None /\
  parseCookies "__proto__=x" = ∅.
Proof. repeat split; vm_compute; reflexivity. Qed.

(** C6.  A request without [Cookie] header, or whose cookies lack
    [CF_Authorization], or without [CF-Connecting-IP] header, is answered
    with 403 [Forbidden], and no call is made: the run has no event. *)
Theorem missing_credential_forbidden (rt : Runtime) (request : Request) :
  headers_get (req_headers request) "Cookie" = None \/
  (exists cookieHeader,
      headers_get (req_headers request) "Cookie" = Some cookieHeader /\
      parseCookies cookieHeader !! "CF_Authorization" = None) \/
  headers_get (req_headers request) "CF-Connecting-IP" = None ->
  handleRequest rt request = ([], Fulfilled (new_Response "Forbidden" 403)).
Proof.
  intros Hmissing. unfold handleRequest.
  destruct (handleRequest_body_cases rt request)
    as [[-> _] | (cookieHeader & token & clientIP & Hc & Hj & _ & Hi & _ & _)]; [done |].
  exfalso. destruct Hmissing as [H | [(h & H & Hh) | H]]; [congruence | | congruence].
  rewrite Hc in H. injection H as <-. congruence.
Qed.

Lemma missing_credential_forbidden_witness :
  let rt := Stub.runtime Stub.identity_ok (Fulfilled Stub.origin_page) in
  handleRequest rt (Stub.request [("Cookie", "a=1; b=x=y"); ("CF-Connecting-IP", "203.0.113.7")])
  = ([], Fulfilled (new_Response "Forbidden" 403)).
Proof.
  intros rt. apply missing_credential_forbidden.
  right. left. exists "a=1; b=x=y". split; [reflexivity | vm_compute; reflexivity].
Defined.

(** C7.  When the lookup call itself is rejected, the response is 500
    [Internal Server Error], and not a 403. *)
Theorem lookup_transport_failure_500 (rt : Runtime) (request : Request)
    (token clientIP : string) (e : js_error) :
  passes_extraction request token clientIP ->
  fetch rt (identity_lookup request token) = Rejected e ->
  handleRequest rt request =
    ([EvFetch (identity_lookup request token);
      EvConsoleError "Worker error during identity check:" e],
     Fulfilled (new_Response "Internal Server Error" 500)) /\
  resp_status (new_Response "Internal Server Error" 500) <> 403.
Proof.
  intros Hpass Hfetch. split; [| done]. unfold handleRequest.
  rewrite (handleRequest_body_resolver rt request token clientIP Hpass).
  by rewrite (check_rejected _ _ _ _ e Hfetch).
Qed.

Lemma lookup_transport_failure_500_witness :
  let rt := Stub.runtime (Rejected (Error "connect ETIMEDOUT")) (Fulfilled Stub.origin_page) in
  (handleRequest rt Stub.good_request).2 = Fulfilled (new_Response "Internal Server Error" 500).
Proof.
  intros rt.
  refine (f_equal snd (proj1
    (lookup_transport_failure_500 rt Stub.good_request "tok123" "203.0.113.7"
       (Error "connect ETIMEDOUT") _ _))); [stub_extraction | reflexivity].
Defined.

(** C8.  Past the first two stages the handler calls [fetch] first for the
    lookup, and for the lookup once only: a GET of
    [https://{hostname}/cdn-cgi/access/get-identity] on the host of the
    inbound request whose [Cookie] header is [CF_Authorization={token}].  The
    only other call a run can make is the forwarding of the request. *)
Theorem lookup_request_shape (rt : Runtime) (request : Request) (token clientIP : string) :
  passes_extraction request token clientIP ->
  exists init rest,
    fetch_calls (handleRequest rt request).1 =
      FetchURL ("https://" +:+ url_hostname (req_url request) +:+ "/cdn-cgi/access/get-identity")
               init :: rest /\
    init_method init = "GET" /\
    headers_get (init_headers init) "Cookie" = Some ("CF_Authorization=" +:+ token) /\
    (rest = [] \/ rest = [FetchRequest request]).
Proof.
  intros Hpass. unfold handleRequest.
  rewrite (handleRequest_body_resolver rt request token clientIP Hpass).
  destruct (identity_check_cases rt request token clientIP)
    as (events & result & -> & [[Hnone [response ->]] | [-> ->]]).
  - do 2 eexists. simpl. rewrite Hnone. repeat split; [reflexivity.. | by left].
  - do 2 eexists. simpl. repeat split; [reflexivity.. | by right].
Qed.

Lemma lookup_request_shape_witness :
  let rt := Stub.runtime Stub.identity_ok (Fulfilled Stub.origin_page) in
  exists init rest,
    fetch_calls (handleRequest rt Stub.replayed_request).1 =
      FetchURL "https://app.example.com/cdn-cgi/access/get-identity" init :: rest /\
    init_method init = "GET" /\
    headers_get (init_headers init) "Cookie" = Some "CF_Authorization=tok123" /\
    (rest = [] \/ rest = [FetchRequest Stub.replayed_request]).
Proof.
  intros rt.
  apply (lookup_request_shape rt Stub.replayed_request "tok123" "198.51.100.9").
  stub_extraction.
Defined.

(** C9.  When the client address equals the identity's [ip], the handler
    passes the inbound request, the very object it received, to [fetch], and
    its promise is the promise of that call: the response of the origin is
    the response of the handler, status, headers and body. *)
Theorem admit_forwards_verbatim (rt : Runtime) (request : Request) (token clientIP : string) :
  passes_extraction request token clientIP ->
  lookup_yields rt request token (VString clientIP) ->
  handleRequest rt request =
    ([EvFetch (identity_lookup request token); EvFetch (FetchRequest request)],
     fetch rt (FetchRequest request)) /\
  (forall originResponse,
      fetch rt (FetchRequest request) = Fulfilled originResponse ->
      (handleRequest rt request).2 = Fulfilled originResponse).
Proof.
  intros Hpass Hlookup.
  assert (Hrun : handleRequest rt request =
                 ([EvFetch (identity_lookup request token); EvFetch (FetchRequest request)],
                  fetch rt (FetchRequest request))).
  { unfold handleRequest.
    rewrite (handleRequest_body_resolver rt request token clientIP Hpass).
    rewrite (check_compared rt request token clientIP _ Hlookup). simpl.
    by rewrite String.eqb_refl. }
  split; [exact Hrun |]. intros originResponse Horigin. by rewrite Hrun.
Qed.

Lemma admit_forwards_verbatim_witness :
  let rt := Stub.runtime Stub.identity_ok (Fulfilled Stub.origin_page) in
  (handleRequest rt Stub.good_request).2 = Fulfilled Stub.origin_page.
Proof.
  intros rt.
  refine (proj2 (admit_forwards_verbatim rt Stub.good_request "tok123" "203.0.113.7" _ _)
            Stub.origin_page _); [stub_extraction | stub_lookup | reflexivity].
Defined.

(** The two ways of writing an empty token both parse to the empty value. *)
Lemma parseCookies_empty_token :
  parseCookies "CF_Authorization=" !! "CF_Authorization" = Some "" /\
  parseCookies "CF_Authorization" !! "CF_Authorization" = Some "".
Proof. split; vm_compute; reflexivity. Qed.



(** The comparison knows nothing about addresses: another letter case or
    another spelling of the same address is another string. *)
Lemma comparison_is_not_normalizing :
  strict_equals_string "2001:db8::1" (VString "2001:DB8::1") = false /\
  strict_equals_string "2001:db8::1" (VString "2001:0db8:0:0:0:0:0:1") = false /\
  strict_equals_string "192.0.2.1" (VString "192.000.002.001") = false /\
  strict_equals_string "192.0.2.1" (VString "192.0.2.1") = true.
Proof. repeat split; reflexivity. Qed.

(** * Properties beyond the specification *)

(** ** More about strings *)

Section MoreStringFacts.

Import JSString.

Lemma split_pieces_no_sep (sep : ascii) (s : string) :
  Forall (fun piece => sep ∉ chars piece) (split sep s).
Proof.
  induction s as [|c s IH]; simpl.
  - repeat constructor. apply not_elem_of_nil.
  - destruct (Ascii.eqb_spec c sep) as [->|Hne].
    + constructor; [apply not_elem_of_nil | done].
    + destruct (split sep s) as [|h t]; [repeat constructor |].
      * apply not_elem_of_cons. split; [congruence | apply not_elem_of_nil].
      * apply Forall_cons in IH as [Hh Ht]. constructor; [| done].
        apply not_elem_of_cons. split; [congruence | done].
Qed.

Lemma length_split (sep : ascii) (s : string) :
  length (split sep s) = S (count_char sep s).
Proof.
  unfold count_char. induction s as [|c s IH]; simpl; [done |].
  rewrite filter_cons.
  destruct (Ascii.eqb_spec c sep) as [->|Hne].
  - rewrite decide_True by done. simpl. by rewrite IH.
  - rewrite decide_False by done.
    destruct (split sep s) as [|h t]; simpl in *; [done | exact IH].
Qed.

Lemma strip_start_starts_clean (p : ascii -> bool) (s : string) :
  starts_clean p (strip_start p s).
Proof.
  induction s as [|c s IH]; simpl; intros d s' H; [done |].
  destruct (p c) eqn:Hc; [by eapply IH | congruence].
Qed.

Lemma strip_end_starts_clean (p : ascii -> bool) (s : string) :
  starts_clean p s -> starts_clean p (strip_end p s).
Proof.
  intros Hs d t H. destruct s as [|c s]; simpl in H; [done |].
  assert (d = c) as ->.
  { destruct (strip_end p s); [destruct (p c) |]; congruence. }
  by eapply Hs.
Qed.

Lemma strip_starts_clean (p : ascii -> bool) (s : string) : starts_clean p (strip p s).
Proof. apply strip_end_starts_clean, strip_start_starts_clean. Qed.

Lemma cut_at_first_starts_clean (p : ascii -> bool) (sep : ascii) (s : string) :
  starts_clean p s -> starts_clean p (cut_at_first sep s).1.
Proof.
  intros Hs d t H. destruct s as [|c s]; simpl in H; [done |].
  destruct (Ascii.eqb c sep); simpl in H; [done |].
  destruct (cut_at_first sep s). simpl in H. injection H as -> _. by eapply Hs.
Qed.

(** Leading characters that satisfy [p] do not count. *)
Lemma strip_start_pad (p : ascii -> bool) (pad s : string) :
  Forall (fun c => p c = true) (chars pad) ->
  strip_start p (pad +:+ s) = strip_start p s.
Proof.
  induction pad as [|c pad IH]; intros H; [done |].
  apply Forall_cons in H as [Hc Hpad].
  change (strip_start p (String c (pad +:+ s)) = strip_start p s).
  simpl. rewrite Hc. auto.
Qed.

Lemma split_prefix (sep : ascii) (pad s : string) :
  sep ∉ chars pad ->
  split sep (pad +:+ s) =
  match split sep s with
  | [] => []
  | piece :: pieces => (pad +:+ piece) :: pieces
  end.
Proof.
  induction pad as [|c pad IH]; intros Hpad.
  - change ("" +:+ s) with s. by destruct (split sep s).
  - apply not_elem_of_cons in Hpad as [Hc Hpad].
    change (split sep (String c (pad +:+ s)) =
            match split sep s with [] => [] | piece :: pieces => String c (pad +:+ piece) :: pieces end).
    simpl. destruct (Ascii.eqb_spec c sep); [congruence |].
    rewrite (IH Hpad). pose proof (split_not_nil sep s). by destruct (split sep s).
Qed.

(** Splitting what was joined with a separator and a pad gives the parts
    back, each but the first behind the pad. *)
Lemma split_join (sep : ascii) (pad : string) (parts : list string) :
  sep ∉ chars pad ->
  Forall (fun part => sep ∉ chars part) parts ->
  split sep (join (String sep pad) parts) =
  match parts with
  | [] => [""]
  | part :: rest => part :: map (fun r => pad +:+ r) rest
  end.
Proof.
  intros Hpad. induction parts as [|part rest IH]; intros H; [done |].
  apply Forall_cons in H as [Hpart Hrest]. specialize (IH Hrest).
  destruct rest as [|r rest]; [by apply split_none |].
  change (join (String sep pad) (part :: r :: rest))
    with (part +:+ String sep (pad +:+ join (String sep pad) (r :: rest))).
  rewrite split_app, (split_none _ _ Hpart), (split_prefix _ _ _ Hpad), IH. done.
Qed.

End MoreStringFacts.

(** ** More about the cookie jar *)

Section MoreCookieFacts.

Import JSString.

Lemma cookie_name_pair (entry : string) :
  cookie_name entry = Some (cookie_pair entry).1.
Proof. apply split_cut_at_first. Qed.

Lemma cookie_value_pair (entry : string) :
  cookie_value entry = (cookie_pair entry).2.
Proof. apply (split_cut_at_first "=" (trim entry)). Qed.

(** What one entry does to the jar, in the words of [cookie_name] and
    [cookie_value]. *)
Lemma parseCookies_entry_lookup (cookies : gmap string string) (entry name n : string) :
  cookie_name entry = Some name ->
  parseCookies_entry cookies entry !! n =
    if decide (name = n /\ name <> "" /\ name <> "__proto__")
    then Some (cookie_value entry)
    else cookies !! n.
Proof.
  intros Hname. rewrite cookie_name_pair in Hname. injection Hname as Hname.
  rewrite parseCookies_entry_pair, cookie_value_pair, Hname.
  destruct name as [|c name]; simpl.
  { rewrite decide_False; [done | intros (_ & ? & _); done]. }
  unfold object_set.
  destruct (String.eqb_spec (String c name) "__proto__") as [Hp | Hp].
  { rewrite decide_False; [done | intros (_ & _ & ?); done]. }
  destruct (decide (String c name = n)) as [<- | Hne].
  - rewrite decide_True by done. apply lookup_insert_eq.
  - rewrite decide_False by (intros (? & _); done). by apply lookup_insert_ne.
Qed.

(** An entry of the jar was read from an entry of the header. *)
Lemma fold_entries_sound (entries : list string) (jar : gmap string string) (n v : string) :
  fold_left parseCookies_entry entries jar !! n = Some v ->
  (exists entry,
      entry ∈ entries /\ cookie_name entry = Some n /\ cookie_value entry = v /\
      n <> "" /\ n <> "__proto__") \/
  jar !! n = Some v.
Proof.
  revert jar. induction entries as [|entry entries IH]; simpl; intros jar H; [by right |].
  destruct (IH _ H) as [(e & He & Hrest) | Hjar].
  { left. exists e. split; [by apply elem_of_cons; right | done]. }
  rewrite (parseCookies_entry_lookup jar entry _ n (cookie_name_pair entry)) in Hjar.
  destruct (decide _) as [(Hn & Hne & Hproto) | _]; [| by right].
  left. exists entry. injection Hjar as <-. subst n.
  split; [by apply elem_of_cons; left |]. by rewrite cookie_name_pair.
Qed.

Lemma fold_entries_keeps (entries : list string) (jar : gmap string string) (n : string) :
  is_Some (jar !! n) -> is_Some (fold_left parseCookies_entry entries jar !! n).
Proof.
  revert jar. induction entries as [|entry entries IH]; simpl; intros jar H; [done |].
  apply IH. rewrite (parseCookies_entry_lookup jar entry _ n (cookie_name_pair entry)).
  by destruct (decide _).
Qed.

Lemma fold_entries_complete (entries : list string) (jar : gmap string string)
    (entry n : string) :
  entry ∈ entries -> cookie_name entry = Some n -> n <> "" -> n <> "__proto__" ->
  is_Some (fold_left parseCookies_entry entries jar !! n).
Proof.
  intros Hin Hname Hne Hproto. revert jar.
  induction entries as [|e entries IH]; intros jar; [by apply elem_of_nil in Hin |].
  apply elem_of_cons in Hin as [<- | Hin]; simpl; [| by apply IH].
  apply fold_entries_keeps.
  rewrite (parseCookies_entry_lookup jar entry n n Hname).
  by rewrite decide_True.
Qed.

(** The pair read from an entry without [;] has the shape of a jar pair. *)
Lemma cookie_pair_ok (entry n : string) :
  ";"%char ∉ chars entry ->
  cookie_name entry = Some n -> n <> "" -> n <> "__proto__" ->
  jar_pair_ok n (cookie_value entry).
Proof.
  intros Hentry Hname Hne Hproto.
  rewrite cookie_name_pair in Hname. injection Hname as <-.
  rewrite cookie_value_pair. unfold cookie_pair, trim.
  assert (Hchars : Forall (fun c => c <> ";"%char) (chars (strip is_white_space entry))).
  { apply strip_chars, Forall_forall. intros c Hc ->. done. }
  destruct (cut_at_first_chars _ "=" _ Hchars) as [Hn Hv].
  split; [done |]. split; [done |].
  split; [apply cut_at_first_name |].
  split; [intros Hin; by apply (proj1 (Forall_forall _ _) Hn ";"%char) |].
  split; [intros Hin; by apply (proj1 (Forall_forall _ _) Hv ";"%char) |].
  split.
  - apply cut_at_first_starts_clean, strip_starts_clean.
  - apply cut_at_first_ends_clean, strip_ends_clean.
Qed.

(** An entry written as [name=value], behind white space or not, reads
    as that name and that value. *)
Lemma cookie_pair_written (pad name value : string) :
  Forall (fun c => is_white_space c = true) (chars pad) ->
  jar_pair_ok name value ->
  cookie_pair (pad +:+ name +:+ "=" +:+ value) = (name, value).
Proof.
  intros Hpad (Hne & _ & Heq & _ & _ & Hstart & Hend).
  unfold cookie_pair, trim, strip. rewrite (strip_start_pad _ _ _ Hpad).
  destruct name as [|c name]; [done |].
  change (String c name +:+ "=" +:+ value) with (String c (name +:+ "=" +:+ value)).
  simpl strip_start. rewrite (Hstart c name eq_refl).
  rewrite strip_end_id.
  - change (String c (name +:+ "=" +:+ value))
      with (String c name +:+ String "=" value).
    by apply cut_at_first_app.
  - intros d Hd.
    change (String c (name +:+ "=" +:+ value)) with (String c name +:+ "=" +:+ value) in Hd.
    rewrite last_char_app in Hd by (by destruct value).
    destruct value as [|v value]; [by injection Hd as <- |].
    change ("=" +:+ String v value) with (String "=" (String v value)) in Hd.
    by apply Hend.
Qed.

Lemma parseCookies_entry_written (jar : gmap string string) (pad name value : string) :
  Forall (fun c => is_white_space c = true) (chars pad) ->
  jar_pair_ok name value ->
  parseCookies_entry jar (pad +:+ name +:+ "=" +:+ value) = <[name := value]> jar.
Proof.
  intros Hpad Hok. rewrite parseCookies_entry_pair, (cookie_pair_written _ _ _ Hpad Hok).
  destruct Hok as (Hne & Hproto & _). simpl.
  apply truthy_true in Hne. rewrite Hne. by apply object_set_other.
Qed.

Lemma fold_written (pad : string) (pairs : list (string * string)) (jar : gmap string string) :
  Forall (fun c => is_white_space c = true) (chars pad) ->
  Forall (fun p => jar_pair_ok p.1 p.2) pairs ->
  fold_left parseCookies_entry
            (map (fun r => pad +:+ r) (map (fun p => fst p +:+ "=" +:+ snd p) pairs)) jar
  = fold_left (fun m p => <[fst p := snd p]> m) pairs jar.
Proof.
  intros Hpad. revert jar. induction pairs as [|[n v] pairs IH]; intros jar H; [done |].
  apply Forall_cons in H as [Hp Hpairs]. simpl.
  rewrite (parseCookies_entry_written _ _ _ _ Hpad Hp). by apply IH.
Qed.

Lemma fold_insert_list_to_map (pairs : list (string * string)) :
  fold_left (fun (m : gmap string string) p => <[fst p := snd p]> m) pairs ∅
  = list_to_map (reverse pairs).
Proof.
  induction pairs as [|[n v] pairs IH] using rev_ind; [done |].
  rewrite fold_left_app, reverse_snoc. simpl. by rewrite IH.
Qed.

Lemma written_no_semicolon (pairs : list (string * string)) :
  Forall (fun p => jar_pair_ok p.1 p.2) pairs ->
  Forall (fun part => ";"%char ∉ chars part)
         (map (fun p => fst p +:+ "=" +:+ snd p) pairs).
Proof.
  intros H. apply Forall_map. eapply Forall_impl; [exact H |].
  intros [n v] (_ & _ & _ & Hn & Hv & _). simpl in *.
  rewrite !chars_app. rewrite !not_elem_of_app. repeat split; [done | | done].
  apply not_elem_of_cons. split; [done | apply not_elem_of_nil].
Qed.

Lemma parseCookies_size_fold (entries : list string) (jar : gmap string string) :
  (size (fold_left parseCookies_entry entries jar) <= size jar + length entries)%nat.
Proof.
  revert jar. induction entries as [|entry entries IH]; intros jar; simpl; [lia |].
  etransitivity; [apply IH |].
  assert (size (parseCookies_entry jar entry) <= S (size jar))%nat; [| lia].
  rewrite parseCookies_entry_pair. destruct (truthy _); [| lia].
  unfold object_set. destruct (String.eqb _ _); [lia |].
  rewrite map_size_insert. destruct (jar !! _); unfold id; lia.
Qed.

End MoreCookieFacts.

Section MoreCookieFacts2.

Import JSString.

(** The header written from pairs of the right shape parses to one
    assignment per pair, in order. *)
Lemma parseCookies_header_of (pairs : list (string * string)) :
  Forall (fun p => jar_pair_ok p.1 p.2) pairs ->
  parseCookies (cookie_header_of pairs)
  = fold_left (fun m p => <[fst p := snd p]> m) pairs ∅.
Proof.
  intros Hok. rewrite parseCookies_unguarded. unfold cookie_header_of.
  change (join "; ") with (join (String ";" " ")).
  rewrite split_join.
  - destruct pairs as [|[n v] pairs]; [done |].
    apply Forall_cons in Hok as [Hp Hpairs].
    change (fold_left parseCookies_entry
              (map (fun r => " " +:+ r) (map (fun p => fst p +:+ "=" +:+ snd p) pairs))
              (parseCookies_entry ∅ ("" +:+ n +:+ "=" +:+ v))
            = fold_left (fun m p => <[fst p := snd p]> m) pairs (<[n := v]> ∅)).
    rewrite (parseCookies_entry_written ∅ "" n v) by (done || constructor).
    apply fold_written; [by repeat constructor | done].
  - apply not_elem_of_cons. split; [done | apply not_elem_of_nil].
  - by apply written_no_semicolon.
Qed.

End MoreCookieFacts2.

(** Closing the shape of a concrete pair by evaluation. *)
Ltac not_in_chars :=
  let H := fresh in
  simpl; intros H;
  repeat (apply elem_of_cons in H as [H | H]; [discriminate H |]);
  by apply elem_of_nil in H.

Ltac pair_ok :=
  unfold jar_pair_ok; simpl;
  split; [discriminate |];
  split; [discriminate |];
  split; [not_in_chars |];
  split; [not_in_chars |];
  split; [not_in_chars |];
  split;
  [ let c := fresh in let s := fresh in let H := fresh in
    intros c s H; injection H as <- _; reflexivity
  | let c := fresh in let H := fresh in
    intros c H; simpl in H;
    first [discriminate H | injection H as <-; reflexivity] ].

(** X1.  Whatever the header, a pair of the jar has the shape of a cookie
    and was read from one of the header's [;]-separated entries: the name is
    not empty, is not [__proto__], holds no [=] and no [;] and does not begin
    with white space; the value holds no [;] and does not end in white
    space. *)
Theorem jar_pairs_shape (cookieHeader n v : string) :
  parseCookies cookieHeader !! n = Some v ->
  jar_pair_ok n v /\
  exists entry,
    entry ∈ JSString.split ";" cookieHeader /\
    cookie_name entry = Some n /\
    cookie_value entry = v.
Proof.
  intros Hjar. rewrite parseCookies_unguarded in Hjar.
  destruct (fold_entries_sound _ _ _ _ Hjar)
    as [(entry & Hin & Hname & Hvalue & Hne & Hproto) | Hempty];
    [| by rewrite lookup_empty in Hempty].
  split; [| by exists entry].
  rewrite <- Hvalue. apply cookie_pair_ok; [| done..].
  by apply (proj1 (Forall_forall _ _) (split_pieces_no_sep ";" cookieHeader)).
Qed.

Lemma jar_pairs_shape_witness :
  parseCookies " a = 1 ;b=x=y " !! "a " = Some " 1" /\
  jar_pair_ok "a " " 1".
Proof.
  assert (H : parseCookies " a = 1 ;b=x=y " !! "a " = Some " 1")
    by (vm_compute; reflexivity).
  split; [exact H |]. exact (proj1 (jar_pairs_shape _ _ _ H)).
Defined.

(** X2.  The names of the jar are exactly the names of the header's
    entries, the empty name and [__proto__] apart. *)
Theorem jar_names (cookieHeader n : string) :
  is_Some (parseCookies cookieHeader !! n) <->
  n <> "" /\ n <> "__proto__" /\
  exists entry, entry ∈ JSString.split ";" cookieHeader /\ cookie_name entry = Some n.
Proof.
  rewrite parseCookies_unguarded. split.
  - intros [v Hjar].
    destruct (fold_entries_sound _ _ _ _ Hjar)
      as [(entry & Hin & Hname & _ & Hne & Hproto) | Hempty];
      [| by rewrite lookup_empty in Hempty].
    repeat split; [done.. |]. by exists entry.
  - intros (Hne & Hproto & entry & Hin & Hname).
    by apply (fold_entries_complete _ _ entry).
Qed.

(** X3.  Round trip: a header written as [name=value] pairs separated by
    [; ] parses to the map of these pairs, a later pair replacing an earlier
    one of the same name, provided each pair has the shape of a jar pair. *)
Theorem cookie_header_round_trip (pairs : list (string * string)) :
  Forall (fun p => jar_pair_ok p.1 p.2) pairs ->
  parseCookies (cookie_header_of pairs) = list_to_map (reverse pairs).
Proof.
  intros Hok. rewrite (parseCookies_header_of pairs Hok).
  apply fold_insert_list_to_map.
Qed.

Lemma cookie_header_round_trip_witness :
  parseCookies (cookie_header_of [("a", "1"); ("CF_Authorization", "tok123");
                                  ("b", "x=y"); ("a", "")])
  = list_to_map [("a", ""); ("b", "x=y"); ("CF_Authorization", "tok123"); ("a", "1")].
Proof.
  apply (cookie_header_round_trip
           [("a", "1"); ("CF_Authorization", "tok123"); ("b", "x=y"); ("a", "")]).
  repeat (apply Forall_cons_2; [pair_ok |]). apply Forall_nil_2.
Defined.

(** X4.  Writing the jar out and parsing it again gives the same jar: the
    jar keeps nothing that the header format cannot carry. *)
Theorem jar_reparse (cookieHeader : string) :
  parseCookies (cookie_header_of (map_to_list (parseCookies cookieHeader)))
  = parseCookies cookieHeader.
Proof.
  rewrite parseCookies_header_of.
  - rewrite fold_insert_list_to_map.
    rewrite (list_to_map_proper _ (map_to_list (parseCookies cookieHeader))).
    + apply list_to_map_to_list.
    + rewrite fmap_reverse, reverse_Permutation. apply NoDup_fst_map_to_list.
    + apply reverse_Permutation.
  - apply Forall_forall. intros [n v] Hin. apply elem_of_map_to_list in Hin.
    simpl. rewrite parseCookies_unguarded in Hin.
    destruct (fold_entries_sound _ _ _ _ Hin)
      as [(entry & He & Hname & Hvalue & Hne & Hproto) | Hempty];
      [| by rewrite lookup_empty in Hempty].
    rewrite <- Hvalue. apply cookie_pair_ok; [| done..].
    by apply (proj1 (Forall_forall _ _) (split_pieces_no_sep ";" cookieHeader)).
Qed.

(** X5.  One more entry behind a [;] changes the jar at the name of that
    entry and nowhere else: the name gets the entry's value, whatever it had
    before (the last occurrence wins), unless the name is empty or
    [__proto__], and then nothing changes. *)
Theorem appended_entry (cookieHeader entry name n : string) :
  ";"%char ∉ JSString.chars entry ->
  cookie_name entry = Some name ->
  parseCookies (cookieHeader +:+ ";" +:+ entry) !! n =
    if decide (name = n /\ name <> "" /\ name <> "__proto__")
    then Some (cookie_value entry)
    else parseCookies cookieHeader !! n.
Proof.
  intros Hentry Hname.
  change (cookieHeader +:+ ";" +:+ entry) with (cookieHeader +:+ String ";" entry).
  rewrite (parseCookies_snoc _ _ Hentry).
  by apply parseCookies_entry_lookup.
Qed.

Lemma appended_entry_witness :
  parseCookies ("CF_Authorization=old; a=1" +:+ ";" +:+ " CF_Authorization=new")
    !! "CF_Authorization" = Some "new" /\
  parseCookies ("CF_Authorization=old; a=1" +:+ ";" +:+ " CF_Authorization=new") !! "a"
  = parseCookies "CF_Authorization=old; a=1" !! "a".
Proof.
  split.
  - refine (appended_entry "CF_Authorization=old; a=1" " CF_Authorization=new"
              "CF_Authorization" "CF_Authorization" _ _); [not_in_chars | reflexivity].
  - refine (appended_entry "CF_Authorization=old; a=1" " CF_Authorization=new"
              "CF_Authorization" "a" _ _); [not_in_chars | reflexivity].
Defined.

(** X6.  The jar has at most one pair per [;]-separated entry: its size is
    at most the number of semicolons of the header plus one. *)
Theorem jar_size_bound (cookieHeader : string) :
  (size (parseCookies cookieHeader) <= S (count_char ";" cookieHeader))%nat.
Proof.
  rewrite parseCookies_unguarded, <- length_split.
  etransitivity; [apply parseCookies_size_fold |].
  rewrite map_size_empty. lia.
Qed.

(** ** More about the handler *)

Section MoreHandlerFacts.

Variable rt : Runtime.

Lemma extracted_unique (request : Request) (token token' clientIP clientIP' : string) :
  extracted request token clientIP ->
  extracted request token' clientIP' ->
  token = token' /\ clientIP = clientIP'.
Proof.
  intros ((h & Hc & Hj) & _ & Hi & _) ((h' & Hc' & Hj') & _ & Hi' & _).
  rewrite Hc in Hc'. injection Hc' as <-. split; congruence.
Qed.

(** [append] leaves the cookie of a token of the jar as it is, or refuses
    it. *)
Lemma append_token_cases (cookieHeader token : string) :
  parseCookies cookieHeader !! "CF_Authorization" = Some token ->
  token <> "" ->
  headers_append [] "Cookie" ("CF_Authorization=" +:+ token) =
    if Http.valid_value ("CF_Authorization=" +:+ token)
    then inr (identityHeaders_of token)
    else inl (TypeError "Invalid header value").
Proof.
  intros Hjar Hne.
  destruct (parseCookies_value (fun _ => True) cookieHeader _ _
              (proj2 (Forall_forall _ _) (fun _ _ => I)) Hjar) as [_ Hclean].
  unfold headers_append.
  assert (Hnorm : Http.normalize ("CF_Authorization=" +:+ token)
                  = "CF_Authorization=" +:+ token).
  { apply (strip_id Http.is_http_whitespace "C"); [done |].
    intros c Hc.
    assert (Hlast : JSString.last_char token = Some c).
    { rewrite <- (last_char_app "CF_Authorization=" token Hne). exact Hc. }
    destruct (Http.is_http_whitespace c) eqn:E; [| done].
    apply http_whitespace_is_white_space in E. by rewrite (Hclean c Hlast) in E. }
  by rewrite Hnorm.
Qed.

(** The identity check, whatever the lookup answers. *)
Lemma identity_check_kinds (request : Request) (token clientIP : string) :
  extracted request token clientIP ->
  run_kind rt request
    (async (identity_check rt request clientIP (identityUrl_of request)
              (identityHeaders_of token))).
Proof.
  intros Hex.
  destruct (fetch rt (identity_lookup request token)) as [identityResponse|e] eqn:Hfetch.
  2: { rewrite (check_rejected _ _ _ _ e Hfetch). by eapply RunError. }
  destruct (resp_ok identityResponse) eqn:Hok.
  2: { rewrite (check_not_ok _ _ _ _ _ Hfetch Hok). by eapply RunLookupDenied. }
  destruct (JSON_parse rt (default "" (resp_body identityResponse))) as [e|data] eqn:Hjson.
  { rewrite (check_unparseable _ _ _ _ _ e Hfetch Hok Hjson). by eapply RunError. }
  destruct (member data "ip") as [e|identityIP] eqn:Hmember.
  { rewrite (check_member_throws _ _ _ _ _ _ e Hfetch Hok Hjson Hmember).
    by eapply RunError. }
  destruct (to_boolean identityIP) eqn:Hip.
  2: { rewrite (check_no_ip _ _ _ _ _ _ _ Hfetch Hok Hjson Hmember Hip).
       by eapply RunLookupDenied. }
  assert (Hyields : lookup_yields rt request token identityIP)
    by (exists identityResponse, data; done).
  rewrite (check_compared rt request token clientIP identityIP Hyields).
  destruct (strict_equals_string clientIP identityIP) eqn:Heq.
  - destruct identityIP; try discriminate Heq. simpl in Heq.
    apply String.eqb_eq in Heq as <-. by eapply RunAdmit.
  - by eapply RunMismatch.
Qed.

(** Every run of the handler is of one of the kinds. *)
Lemma handleRequest_kinds (request : Request) :
  run_kind rt request (handleRequest rt request).
Proof.
  unfold handleRequest.
  destruct (handleRequest_body_cases rt request)
    as [[-> Hdeny] | (cookieHeader & token & clientIP & Hc & Hj & Ht & Hi & Hcl & ->)].
  - apply RunNoCredential. intros token clientIP ((h & Hc & Hj) & Ht & Hi & Hcl).
    rewrite Hc, Hi in Hdeny.
    destruct Hdeny as [H | [H | [(h' & H & Hh) | [H | H]]]]; try done.
    + injection H as ->. rewrite parseCookies_empty in Hj. by rewrite lookup_empty in Hj.
    + injection H as <-. rewrite Hj in Hh. destruct Hh as [? | [= ->]]; done.
    + by injection H as ->.
  - assert (Hex : extracted request token clientIP) by (repeat split; eauto).
    rewrite (append_token_cases cookieHeader token Hj Ht).
    destruct (Http.valid_value _) eqn:Hvalid.
    + rewrite bind_lift_inr. by apply identity_check_kinds.
    + by eapply RunRefusedHeader.
Qed.

(** The cookie of a token taken from well-formed headers is a header
    value. *)
Lemma token_cookie_valid (request : Request) (token clientIP : string) :
  headers_wf (req_headers request) ->
  extracted request token clientIP ->
  Http.valid_value ("CF_Authorization=" +:+ token) = true.
Proof.
  intros Hwf ((cookieHeader & Hc & Hj) & _).
  apply Is_true_true, valid_value_chars. rewrite chars_app.
  apply Forall_app_2; [by repeat constructor |].
  eapply parseCookies_value; [| exact Hj]. by eapply headers_get_valid.
Qed.

(** Two requests that differ in nothing the first two stages read run the
    same identity check, up to the request that is forwarded. *)
Lemma identity_check_frame (r1 r2 : Request) (clientIP identityUrl : string)
    (identityHeaders : Headers) :
  (identity_check rt r1 clientIP identityUrl identityHeaders
   = identity_check rt r2 clientIP identityUrl identityHeaders /\
   forall r, FetchRequest r ∉ fetch_calls
               (identity_check rt r1 clientIP identityUrl identityHeaders).1) \/
  (exists first,
      identity_check rt r1 clientIP identityUrl identityHeaders
      = ([EvFetch first; EvFetch (FetchRequest r1)],
         Normal (ReturnPromise (fetch rt (FetchRequest r1)))) /\
      identity_check rt r2 clientIP identityUrl identityHeaders
      = ([EvFetch first; EvFetch (FetchRequest r2)],
         Normal (ReturnPromise (fetch rt (FetchRequest r2))))).
Proof.
  unfold identity_check, call_fetch. cbn [Eff.bind Eff.emit Eff.ret app].
  set (first := FetchURL identityUrl _).
  assert (Hfirst : forall r more,
             (FetchRequest r ∉ fetch_calls [EvFetch first; EvConsoleLog more]) /\
             (forall l e, FetchRequest r ∉ fetch_calls [EvFetch first; EvConsoleError l e])).
  { intros r more. split; [| intros l e]; simpl; intros H;
      apply list_elem_of_singleton in H; discriminate H. }
  destruct (fetch rt first) as [identityResponse|e].
  2: { left. split; [done |]. intros r. apply (Hfirst r LogMissingIpClaim). }
  cbn [Eff.await Eff.bind Eff.ret app].
  destruct (resp_ok identityResponse).
  2: { left. split; [done |]. intros r. apply (Hfirst r). }
  unfold response_json.
  destruct (JSON_parse rt _) as [e|data].
  { left. split; [done |]. intros r. apply (Hfirst r LogMissingIpClaim). }
  cbn [negb Eff.await Eff.bind Eff.ret app].
  destruct (member data "ip") as [e|identityIP].
  { left. split; [done |]. intros r. apply (Hfirst r LogMissingIpClaim). }
  cbn [Eff.lift Eff.bind Eff.ret app].
  destruct (to_boolean identityIP).
  2: { left. split; [done |]. intros r. apply (Hfirst r). }
  destruct (strict_equals_string clientIP identityIP).
  - right. by exists first.
  - left. split; [done |]. intros r. apply (Hfirst r).
Qed.

End MoreHandlerFacts.

(** X7.  The origin is reached through the check only: whenever a run
    calls [fetch] with a request, it is the inbound request itself, the token
    and the client address were both present and not empty, and the lookup
    for that token answered 2xx with a body whose [ip] is a string equal to
    the client address. *)
Theorem origin_reached_only_after_match (rt : Runtime) (request forwardedRequest : Request) :
  FetchRequest forwardedRequest ∈ fetch_calls (handleRequest rt request).1 ->
  forwardedRequest = request /\
  exists token clientIP,
    extracted request token clientIP /\
    lookup_yields rt request token (VString clientIP).
Proof.
  intros Hin.
  destruct (handleRequest_kinds rt request); simpl in Hin.
  - by apply elem_of_nil in Hin.
  - by apply elem_of_nil in Hin.
  - apply list_elem_of_singleton in Hin. discriminate Hin.
  - apply list_elem_of_singleton in Hin. discriminate Hin.
  - apply list_elem_of_singleton in Hin. discriminate Hin.
  - apply elem_of_cons in Hin as [Hin | Hin]; [discriminate Hin |].
    apply list_elem_of_singleton in Hin. injection Hin as ->. eauto.
Qed.

Lemma origin_reached_only_after_match_witness :
  let rt := Stub.runtime Stub.identity_ok (Fulfilled Stub.origin_page) in
  FetchRequest Stub.good_request ∈ fetch_calls (handleRequest rt Stub.good_request).1 /\
  exists token clientIP,
    extracted Stub.good_request token clientIP /\
    lookup_yields rt Stub.good_request token (VString clientIP).
Proof.
  intros rt.
  assert (H : FetchRequest Stub.good_request
              ∈ fetch_calls (handleRequest rt Stub.good_request).1).
  { vm_compute. apply list_elem_of_further, list_elem_of_here. }
  split; [exact H |].
  exact (proj2 (origin_reached_only_after_match rt _ _ H)).
Defined.



(** X9.  The listener answers every event, with one call of
    [respondWith], and for a request with well-formed headers the promise it
    passes is one of three responses of the gate (403 [Forbidden], 403
    [Forbidden)], 500 [Internal Server Error]) or the promise of the origin
    call of a run that forwarded the request.  The gate never makes up a
    success. *)
Theorem listener_responses (rt : Runtime) (fetchEvent : FetchEvent) :
  headers_wf (req_headers (event_request fetchEvent)) ->
  exists events response,
    fetch_listener rt fetchEvent = (events, [response]) /\
    (response = Fulfilled (new_Response "Forbidden" 403) \/
     response = Fulfilled (new_Response "Forbidden)" 403) \/
     response = Fulfilled (new_Response "Internal Server Error" 500) \/
     (response = fetch rt (FetchRequest (event_request fetchEvent)) /\
      forwarded rt (event_request fetchEvent))).
Proof.
  intros Hwf. unfold fetch_listener, forwarded.
  destruct (handleRequest_kinds rt (event_request fetchEvent))
    as [ | token clientIP Hex Hvalid | | | | ];
    do 2 eexists; (split; [reflexivity |]); auto.
  - rewrite (token_cookie_valid _ _ _ Hwf Hex) in Hvalid. discriminate Hvalid.
  - do 3 right. split; [done |]. simpl.
    apply list_elem_of_further, list_elem_of_here.
Qed.

Lemma listener_responses_witness :
  let rt := Stub.runtime Stub.identity_ok (Fulfilled Stub.origin_page) in
  exists events response,
    fetch_listener rt {| event_request := Stub.replayed_request |} = (events, [response]) /\
    (response = Fulfilled (new_Response "Forbidden" 403) \/
     response = Fulfilled (new_Response "Forbidden)" 403) \/
     response = Fulfilled (new_Response "Internal Server Error" 500) \/
     (response = fetch rt (FetchRequest Stub.replayed_request) /\
      forwarded rt Stub.replayed_request)).
Proof.
  intros rt.
  apply (listener_responses rt {| event_request := Stub.replayed_request |}).
  repeat constructor.
Defined.

(** X10.  A run calls [fetch] at most twice.  The first call, if any, is
    the lookup for the token of the request, on the host of the request; the
    second, if any, forwards the request.  Nothing else is ever fetched, so
    the token is sent nowhere but to the Access endpoint of the inbound
    host. *)
Theorem fetch_budget (rt : Runtime) (request : Request) :
  fetch_calls (handleRequest rt request).1 = [] \/
  exists token clientIP,
    extracted request token clientIP /\
    (fetch_calls (handleRequest rt request).1 = [identity_lookup request token] \/
     fetch_calls (handleRequest rt request).1
     = [identity_lookup request token; FetchRequest request]).
Proof.
  destruct (handleRequest_kinds rt request); simpl; eauto 8.
Qed.

(** X11.  The verdict reads the host name and the [Cookie] and
    [CF-Connecting-IP] headers and nothing else: two requests that agree on
    these three are both forwarded or both not, and when they are not, their
    runs are the same, whatever their methods, paths, bodies and other
    headers. *)
Theorem verdict_reads_three_inputs (rt : Runtime) (r1 r2 : Request) :
  url_hostname (req_url r1) = url_hostname (req_url r2) ->
  headers_get (req_headers r1) "Cookie" = headers_get (req_headers r2) "Cookie" ->
  headers_get (req_headers r1) "CF-Connecting-IP"
  = headers_get (req_headers r2) "CF-Connecting-IP" ->
  (forwarded rt r1 <-> forwarded rt r2) /\
  (~ forwarded rt r1 -> handleRequest rt r1 = handleRequest rt r2).
Proof.
  intros Hhost Hcookie Hip. unfold forwarded, handleRequest, handleRequest_body.
  rewrite <- Hhost, <- Hcookie, <- Hip.
  destruct (headers_get (req_headers r1) "Cookie") as [cookieHeader|];
    [| simpl; split; [split; intros H; by apply elem_of_nil in H | done]].
  destruct (negb (JSString.truthy cookieHeader));
    [simpl; split; [split; intros H; by apply elem_of_nil in H | done] |].
  destruct (object_get (parseCookies cookieHeader) "CF_Authorization") as [token|];
    [| simpl; split; [split; intros H; by apply elem_of_nil in H | done]].
  destruct (negb (JSString.truthy token));
    [simpl; split; [split; intros H; by apply elem_of_nil in H | done] |].
  destruct (headers_get (req_headers r1) "CF-Connecting-IP") as [clientIP|];
    [| simpl; split; [split; intros H; by apply elem_of_nil in H | done]].
  destruct (negb (JSString.truthy clientIP));
    [simpl; split; [split; intros H; by apply elem_of_nil in H | done] |].
  destruct (headers_append [] "Cookie" ("CF_Authorization=" +:+ token)) as [e|identityHeaders];
    [simpl; split; [split; intros H; by apply elem_of_nil in H | done] |].
  rewrite !bind_lift_inr.
  destruct (identity_check_frame rt r1 r2 clientIP
              ("https://" +:+ url_hostname (req_url r1) +:+ "/cdn-cgi/access/get-identity")
              identityHeaders) as [[Hsame Hnone] | (first & -> & ->)].
  - rewrite <- Hsame.
    destruct (identity_check rt r1 _ _ _) as [events [[response|p]|e]]; simpl in *;
      (split; [split; intros H; by apply Hnone in H | done]).
  - simpl. split.
    + split; intros _; apply list_elem_of_further, list_elem_of_here.
    + intros Hnot. exfalso. apply Hnot, list_elem_of_further, list_elem_of_here.
Qed.

Lemma verdict_reads_three_inputs_witness :
  let rt := Stub.runtime Stub.identity_ok (Fulfilled Stub.origin_page) in
  forwarded rt Stub.good_request <-> forwarded rt Script.other_request.
Proof.
  intros rt.
  refine (proj1 (verdict_reads_three_inputs rt Stub.good_request Script.other_request _ _ _));
    reflexivity.
Defined.

(** X12.  For a request with well-formed headers the lookup is skipped,
    and the run is the plain 403 [Forbidden] without any event, exactly when
    a credential is absent or empty: the [Cookie] header, the
    [CF_Authorization] cookie in it, or the [CF-Connecting-IP] header.  An
    empty header counts as a missing one. *)
Theorem lookup_skipped_exactly_when (rt : Runtime) (request : Request) :
  headers_wf (req_headers request) ->
  handleRequest rt request = ([], Fulfilled (new_Response "Forbidden" 403)) <->
  headers_get (req_headers request) "Cookie" = None \/
  headers_get (req_headers request) "Cookie" = Some "" \/
  (exists cookieHeader,
      headers_get (req_headers request) "Cookie" = Some cookieHeader /\
      (parseCookies cookieHeader !! "CF_Authorization" = None \/
       parseCookies cookieHeader !! "CF_Authorization" = Some "")) \/
  headers_get (req_headers request) "CF-Connecting-IP" = None \/
  headers_get (req_headers request) "CF-Connecting-IP" = Some "".
Proof.
  intros Hwf.
  destruct (handleRequest_body_cases rt request)
    as [[Hbody Hdeny] | (cookieHeader & token & clientIP & Hc & Hj & Ht & Hi & Hcl & _)].
  { split; [done |]. intros _. unfold handleRequest. by rewrite Hbody. }
  assert (Hpass : passes_extraction request token clientIP) by (repeat split; eauto).
  split.
  - intros Hrun. exfalso. unfold handleRequest in Hrun.
    rewrite (handleRequest_body_resolver rt request token clientIP Hpass) in Hrun.
    destruct (identity_check_cases rt request token clientIP)
      as (events & result & Hcheck & _).
    rewrite Hcheck in Hrun. by destruct result.
  - rewrite Hc, Hi. intros [H | [H | [(h & H & Hh) | [H | H]]]]; try done.
    + injection H as ->. rewrite parseCookies_empty in Hj. by rewrite lookup_empty in Hj.
    + injection H as <-. rewrite Hj in Hh. destruct Hh as [? | [= ->]]; done.
    + by injection H as ->.
Qed.

Lemma lookup_skipped_exactly_when_witness :
  let rt := Stub.runtime Stub.identity_ok (Fulfilled Stub.origin_page) in
  handleRequest rt (Stub.request [("Cookie", "CF_Authorization=tok123");
                                  ("CF-Connecting-IP", "")])
  = ([], Fulfilled (new_Response "Forbidden" 403)).
Proof.
  intros rt.
  apply (lookup_skipped_exactly_when rt
           (Stub.request [("Cookie", "CF_Authorization=tok123"); ("CF-Connecting-IP", "")]));
    [repeat constructor | do 4 right; reflexivity].
Defined.

(** X13.  Of several [CF_Authorization] cookies the last one is the
    credential: when the [Cookie] header ends in [; CF_Authorization=token],
    the lookup carries that token, whatever stands before it. *)
Theorem last_token_is_looked_up (rt : Runtime) (request : Request)
    (before token clientIP : string) :
  headers_wf (req_headers request) ->
  headers_get (req_headers request) "Cookie"
  = Some (before +:+ "; CF_Authorization=" +:+ token) ->
  token <> "" ->
  ";"%char ∉ JSString.chars token ->
  JSString.ends_clean JSString.is_white_space token ->
  headers_get (req_headers request) "CF-Connecting-IP" = Some clientIP ->
  clientIP <> "" ->
  exists rest,
    fetch_calls (handleRequest rt request).1 = identity_lookup request token :: rest.
Proof.
  intros Hwf Hcookie Htoken Hsemi Hclean Hip Hclient.
  assert (Hok : jar_pair_ok "CF_Authorization" token).
  { repeat split; try done; try not_in_chars.
    intros c s' H. injection H as <- _. reflexivity. }
  assert (Hjar : parseCookies (before +:+ "; CF_Authorization=" +:+ token)
                 !! "CF_Authorization" = Some token).
  { change (before +:+ "; CF_Authorization=" +:+ token)
      with (before +:+ String ";" (" " +:+ "CF_Authorization" +:+ "=" +:+ token)).
    rewrite parseCookies_snoc.
    - rewrite (parseCookies_entry_written _ " " "CF_Authorization" token);
        [apply lookup_insert_eq | by repeat constructor | done].
    - rewrite !chars_app, !not_elem_of_app. repeat split; [not_in_chars.. | done]. }
  assert (Hpass : passes_extraction request token clientIP) by (repeat split; eauto).
  unfold handleRequest.
  rewrite (handleRequest_body_resolver rt request token clientIP Hpass).
  destruct (identity_check_cases rt request token clientIP)
    as (events & result & -> & _).
  destruct result; simpl; eauto.
Qed.

Lemma last_token_is_looked_up_witness :
  let rt := Stub.runtime Stub.identity_ok (Fulfilled Stub.origin_page) in
  let request := Stub.request [("Cookie", "CF_Authorization=planted; CF_Authorization=tok123");
                               ("CF-Connecting-IP", "203.0.113.7")] in
  exists rest,
    fetch_calls (handleRequest rt request).1 = identity_lookup request "tok123" :: rest.
Proof.
  intros rt request.
  apply (last_token_is_looked_up rt request "CF_Authorization=planted" "tok123" "203.0.113.7").
  - repeat constructor.
  - reflexivity.
  - discriminate.
  - not_in_chars.
  - intros c H. simpl in H. injection H as <-. reflexivity.
  - reflexivity.
  - discriminate.
Defined.

(** X14.  The console tells the refusals apart from the rest: a run that
    forwards the request, or that makes no lookup, writes nothing; a run that
    makes the lookup and does not forward writes exactly one line; and an
    error line only ever comes with the 500 [Internal Server Error]
    response. *)
Theorem console_discipline (rt : Runtime) (request : Request) :
  let events := (handleRequest rt request).1 in
  let lines := filter (fun ev => is_console ev = true) events in
  (forwarded rt request \/ fetch_calls events = [] -> lines = []) /\
  (~ forwarded rt request -> fetch_calls events <> [] -> exists line, lines = [line]) /\
  (forall label e,
      EvConsoleError label e ∈ events ->
      (handleRequest rt request).2 = Fulfilled (new_Response "Internal Server Error" 500)).
Proof.
  unfold forwarded.
  assert (Hno : forall (x : FetchInput) (l : list FetchInput),
             x ∈ l -> Forall (fun y => x <> y) l -> False).
  { intros x l Hin Hall. by apply (proj1 (Forall_forall _ _) Hall x Hin). }
  destruct (handleRequest_kinds rt request); simpl.
  - split; [done |]. split; [done |]. intros label e Hin. by apply elem_of_nil in Hin.
  - split; [done |]. split; [done |]. intros label e Hin. by apply elem_of_nil in Hin.
  - split; [| split].
    + intros [Hin | Hnil]; [| discriminate Hnil].
      exfalso. apply (Hno _ _ Hin). by repeat constructor.
    + intros _ _. by eexists.
    + intros label e Hin. exfalso.
      apply elem_of_cons in Hin as [Hin | Hin]; [discriminate Hin |].
      apply list_elem_of_singleton in Hin. discriminate Hin.
  - split; [| split].
    + intros [Hin | Hnil]; [| discriminate Hnil].
      exfalso. apply (Hno _ _ Hin). by repeat constructor.
    + intros _ _. by eexists.
    + intros label e Hin. exfalso.
      apply elem_of_cons in Hin as [Hin | Hin]; [discriminate Hin |].
      apply list_elem_of_singleton in Hin. discriminate Hin.
  - split; [| split].
    + intros [Hin | Hnil]; [| discriminate Hnil].
      exfalso. apply (Hno _ _ Hin). by repeat constructor.
    + intros _ _. by eexists.
    + done.
  - split; [done |]. split.
    + intros Hnot. exfalso. apply Hnot, list_elem_of_further, list_elem_of_here.
    + intros label e Hin. exfalso.
      apply elem_of_cons in Hin as [Hin | Hin]; [discriminate Hin |].
      apply list_elem_of_singleton in Hin. discriminate Hin.
Qed.

(** ** White space around an entry *)

Section PaddingFacts.

Import JSString.







End PaddingFacts.


